(** * en-uk-usa: the British/American spelling dictionary of [mod.ts]

    A shallow embedding of [_matchCase] and of the [Dictionary] class, and
    the properties of them that the specification states.

    Strings are sequences of UTF-16 code units, as the host has them.  The
    host's string primitives ([toUpperCase], [toLowerCase],
    [toLocaleLowerCase]) and its [RegExp] constructor are not part of
    [mod.ts]: they are the fields of the class [Host], and the general
    theorems hold for every host.  The host's behaviour on Basic Latin
    text, where a theorem needs it, is the class [HostLaws].

    The two indices [#enGB] and [#enUS] are plain objects.  Each is
    modelled by the finite map of its own properties and by its
    prototype: [Object.prototype], or the array that an assignment to
    [__proto__] has put in its place.  A property read goes through the
    own properties and then through the prototype chain, so it can yield
    a value that is no entry; a write creates an own property or, for
    [__proto__], replaces the prototype.  The names of the properties of
    [Object.prototype] and [Array.prototype] are those of ECMAScript 2023,
    all of them writable as the standard has them.  [entries()] is given
    in the order in which the map enumerates the own keys, not in the
    host's property order. *)

From Stdlib Require Import NArith Ascii String.
From stdpp Require Import gmap strings list fin_maps.

(** ** Strings *)

(** A string of the host: a list of code units. *)
Abbreviation jsstring := (list N).

(** The string written with the characters of [s], one code unit for each
    (Basic Latin and Latin-1 only). *)
Definition js (s : string) : jsstring :=
  Ascii.N_of_ascii <$> String.list_ascii_of_string s.

(** [s.charAt(i)]: the unit at [i] as a string, the empty string out of
    range. *)
Definition charAt (s : jsstring) (i : nat) : jsstring :=
  match s !! i with
  | Some c => [c]
  | None => []
  end.

(** [s.slice(start)] for a [start] that is not negative. *)
Definition slice (s : jsstring) (start : nat) : jsstring := drop start s.

(** [out.join("")] *)
Definition join (out : list jsstring) : jsstring := concat out.

(** [out.push(x)] *)
Definition push (out : list jsstring) (x : jsstring) : list jsstring :=
  out ++ [x].

(** The host's [a < b] on strings: the order of the code units, a proper
    prefix before its extensions. *)
Fixpoint str_lt (a b : jsstring) : bool :=
  match a, b with
  | _, [] => false
  | [], _ :: _ => true
  | x :: a', y :: b' =>
      if (x <? y)%N then true
      else if (y <? x)%N then false
      else str_lt a' b'
  end.

Definition str_ge (a b : jsstring) : bool := negb (str_lt a b).
Definition str_le (a b : jsstring) : bool := negb (str_lt b a).

(** ** The host *)

Class Host := {
  (** the [locales] arguments the host accepts, [undefined] among them *)
  locales : Type;
  toUpperCase : jsstring → jsstring;
  toLowerCase : jsstring → jsstring;
  (** [word.toLocaleLowerCase(locales)]; [None] when the host refuses
      the argument and throws a [RangeError] *)
  toLocaleLowerCase : jsstring → locales → option jsstring;
  (** whether [new RegExp(pattern, flags)] returns; it throws a
      [SyntaxError] otherwise *)
  regexp_compiles : jsstring → jsstring → bool;
  (** whether [Object.prototype] has the accessor [__proto__] (some hosts
      delete it) *)
  has_proto_accessor : bool;
}.

(** Basic Latin: the code units below 128, and the case mapping of their
    letters. *)
Definition basic_latin (c : N) : Prop := (c < 128)%N.

Definition basic_upper (c : N) : N :=
  if (97 <=? c)%N && (c <=? 122)%N then (c - 32)%N else c.

Definition basic_lower (c : N) : N :=
  if (65 <=? c)%N && (c <=? 90)%N then (c + 32)%N else c.

(** What every host does on Basic Latin text: only the letters change,
    unit by unit. *)
Class HostLaws (H : Host) : Prop := {
  toUpperCase_basic s :
    Forall basic_latin s → toUpperCase s = basic_upper <$> s;
  toLowerCase_basic s :
    Forall basic_latin s → toLowerCase s = basic_lower <$> s;
}.

(** ** [_matchCase] *)

Section MatchCase.
Context {H : Host}.

(** [ref >= "A" && ref <= "Z"] *)
Definition isRefUpper (ref : jsstring) : bool :=
  str_ge ref (js "A") && str_le ref (js "Z").

(** The body of the loop at index [i]: what is pushed on [out]. *)
Definition mixed_body (input toMatch : jsstring) (i : nat) : jsstring :=
  let src := charAt input i in
  let ref := charAt toMatch i in
  if bool_decide (toLowerCase src = toLowerCase ref) then
    if isRefUpper ref then toUpperCase src else toLowerCase src
  else src.

(** [for (let i = ...; i < last; i++) { ... }], with [steps] iterations
    left to run. *)
Fixpoint mixed_loop (input toMatch : jsstring) (steps i : nat)
    (out : list jsstring) : list jsstring :=
  match steps with
  | 0 => out
  | S steps' =>
      mixed_loop input toMatch steps' (S i) (push out (mixed_body input toMatch i))
  end.

Definition isTitleCase (toMatch : jsstring) : bool :=
  bool_decide (charAt toMatch 0 = toUpperCase (charAt toMatch 0))
  && bool_decide (slice toMatch 1 = toLowerCase (slice toMatch 1)).

Definition isAllUpper (toMatch : jsstring) : bool :=
  bool_decide (toMatch = toUpperCase toMatch).

Definition isAllLower (toMatch : jsstring) : bool :=
  bool_decide (toMatch = toLowerCase toMatch).

(** The mixed branch of [_matchCase], from [const out = []] on. *)
Definition mixed_case (input toMatch : jsstring) : jsstring :=
  let out := [] in
  let last := length input `min` length toMatch in
  let out := mixed_loop input toMatch last 0 out in
  let out :=
    if bool_decide (length toMatch < length input)
    then push out (slice input (length toMatch))
    else out in
  join out.

Definition _matchCase (input toMatch : jsstring) : jsstring :=
  if bool_decide (length input = 0) || bool_decide (length toMatch = 0)
  then input
  else if isTitleCase toMatch then
    let head := toUpperCase (charAt input 0) in
    let tail := toLowerCase (slice input 1) in
    head ++ tail
  else if isAllUpper toMatch then toUpperCase input
  else if isAllLower toMatch then toLowerCase input
  else mixed_case input toMatch.
End MatchCase.

(** ** A host for Latin-1 text *)

Module Latin1.
(** The upper case of one unit; [ß] has two units, [µ] and [ÿ] leave
    Latin-1. *)
Definition upper_unit (c : N) : jsstring :=
  if (97 <=? c)%N && (c <=? 122)%N then [(c - 32)%N]
  else if (c =? 181)%N then [924%N]
  else if (c =? 223)%N then [83%N; 83%N]
  else if (224 <=? c)%N && (c <=? 254)%N && negb (c =? 247)%N then [(c - 32)%N]
  else if (c =? 255)%N then [376%N]
  else [c].

Definition lower_unit (c : N) : N :=
  if (65 <=? c)%N && (c <=? 90)%N then (c + 32)%N
  else if (192 <=? c)%N && (c <=? 222)%N && negb (c =? 215)%N then (c + 32)%N
  else c.

(** In Turkish the lower case of [I] is the dotless [ı]. *)
Definition lower_unit_tr (c : N) : N :=
  if (c =? 73)%N then 305%N else lower_unit c.

(** The syntax characters of a pattern: [^ $ \ . * + ? ( ) [ ] { } |]. *)
Definition syntax_character (c : N) : bool :=
  bool_decide (c ∈ js "^$\.*+?()[]{}|").

(** A language subtag on its own: two or three Basic Latin letters. *)
Definition language_tag (tag : jsstring) : bool :=
  (bool_decide (length tag = 2) || bool_decide (length tag = 3))
  && forallb (λ c, ((65 <=? c)%N && (c <=? 90)%N)
                   || ((97 <=? c)%N && (c <=? 122)%N)) tag.

(** The case mappings of the host on strings whose units are below 256
    (other units are left as they are).  The constructor of regular
    expressions accepts the patterns that hold no syntax character, which
    stand for themselves, and refuses the others: the host accepts more
    patterns than that, and refuses the pattern [(] as this one does.
    The locales accepted are [undefined] and the language subtags on
    their own: the host accepts more tags than that, and refuses the tag
    [en_US] as this one does. *)
#[local] Instance host : Host := {
  locales := option jsstring;
  toUpperCase s := s ≫= upper_unit;
  toLowerCase s := lower_unit <$> s;
  toLocaleLowerCase s l :=
    match l with
    | None => Some (lower_unit <$> s)
    | Some tag =>
        if language_tag tag then
          Some (if bool_decide (tag = js "tr") then lower_unit_tr <$> s
                else lower_unit <$> s)
        else None
    end;
  regexp_compiles pattern _ := forallb (λ c, negb (syntax_character c)) pattern;
  has_proto_accessor := true;
}.
End Latin1.

(** ** The [Dictionary] class *)

(** A [RegExp] object, as far as [mod.ts] builds it. *)
Record RegExp := { pattern : jsstring; flags : jsstring }.

(** The value under a key: the array [[counterpart, regex]]. *)
Abbreviation entry := (jsstring * RegExp)%type.

(** What a property read of an index can yield. *)
Inductive Value :=
  | undefined
  (** an array [[counterpart, regex]] *)
  | tuple (array : entry)
  | str (s : jsstring)
  | regexp (regex : RegExp)
  | number (n : N)
  (** a function or an object of the host: truthy, not iterable and with
      no property [0] *)
  | builtin.

(** The state of an instance: the own properties of [#enGB] and [#enUS],
    and for each the array that an assignment to [__proto__] has made its
    prototype, [None] while the prototype is [Object.prototype]. *)
Record Dictionary := {
  enGB : gmap jsstring entry;
  enUS : gmap jsstring entry;
  protoGB : option entry;
  protoUS : option entry;
}.

Record WordPair := { gb : jsstring; us : jsstring }.

(** [string | string[]] *)
Inductive Words :=
  | Word (word : jsstring)
  | WordList (words : list jsstring).

Inductive Error := SyntaxError | TypeError | RangeError.

(** How a call ends. *)
Inductive completion (A : Type) :=
  | Return (a : A)
  | Throw (e : Error).
Arguments Return {A} a.
Arguments Throw {A} e.

(** A method body: it runs on the state of the instance and leaves a
    completion and the state it has reached, also when it throws. *)
Definition M (A : Type) : Type := Dictionary → completion A * Dictionary.

#[global] Instance M_ret : MRet M := λ A a d, (Return a, d).
#[global] Instance M_bind : MBind M := λ A B f m d,
  match m d with
  | (Return a, d') => f a d'
  | (Throw e, d') => (Throw e, d')
  end.

(** A completion that does not touch the state. *)
Definition lift {A} (c : completion A) : M A := λ d, (c, d).

(** [this] *)
Definition this : M Dictionary := λ d, (Return d, d).

(** The names of the function-valued properties of [Object.prototype];
    [__proto__] is its one accessor. *)
Definition object_prototype_names : list jsstring :=
  js <$> [ "constructor"; "__defineGetter__"; "__defineSetter__";
           "hasOwnProperty"; "__lookupGetter__"; "__lookupSetter__";
           "isPrototypeOf"; "propertyIsEnumerable"; "toString"; "valueOf";
           "toLocaleString" ]%string.

(** The names of the function-valued properties of [Array.prototype]. *)
Definition array_prototype_names : list jsstring :=
  js <$> [ "at"; "concat"; "constructor"; "copyWithin"; "entries"; "every";
           "fill"; "filter"; "find"; "findIndex"; "findLast";
           "findLastIndex"; "flat"; "flatMap"; "forEach"; "includes";
           "indexOf"; "join"; "keys"; "lastIndexOf"; "map"; "pop"; "push";
           "reduce"; "reduceRight"; "reverse"; "shift"; "slice"; "some";
           "sort"; "splice"; "toLocaleString"; "toReversed"; "toSorted";
           "toSpliced"; "toString"; "unshift"; "values"; "with" ]%string.

(** The first code point of a string, as its iterator yields it: a lead
    surrogate with the trail surrogate that follows it, or one unit. *)
Definition first_code_point (s : jsstring) : jsstring :=
  match s with
  | [] => []
  | [c] => [c]
  | hi :: lo :: _ =>
      if (55296 <=? hi)%N && (hi <=? 56319)%N
         && (56320 <=? lo)%N && (lo <=? 57343)%N
      then [hi; lo] else [hi]
  end.

(** [value === undefined || value === null], the test of [??]. *)
Definition nullish (value : Value) : bool :=
  match value with
  | undefined => true
  | _ => false
  end.

(** [!value] *)
Definition falsy (value : Value) : bool :=
  match value with
  | undefined | str [] | number 0%N => true
  | _ => false
  end.

(** [value[0]] for a value that is not [undefined]; [None] is
    [undefined]. *)
Definition element0 (value : Value) : option jsstring :=
  match value with
  | tuple (counterpart, _) => Some counterpart
  | str (c :: _) => Some [c]
  | _ => None
  end.

(** [if (key) ...] for a [key: string | undefined]: the empty string is
    falsy as [undefined] is. *)
Definition truthy (key : option jsstring) : bool :=
  match key with
  | Some (_ :: _) => true
  | _ => false
  end.

(** [if (!entry) return word; const [x] = entry;
    return matchCase ? _matchCase(x, word) : x;]
    A falsy entry gives the word back; an array gives its first element,
    a string its first code point; any other value is not iterable and
    the destructuring throws a [TypeError]. *)
Definition translate_entry {H : Host} (entry : Value) (word : jsstring)
    (matchCase : bool) : completion jsstring :=
  match entry with
  | undefined | str [] | number 0%N => Return word
  | tuple (x, _) => Return (if matchCase then _matchCase x word else x)
  | str s =>
      let x := first_code_point s in
      Return (if matchCase then _matchCase x word else x)
  | regexp _ | number _ | builtin => Throw TypeError
  end.

(** [words.map(f)] *)
Fixpoint map_words (f : jsstring → M jsstring) (words : list jsstring)
    : M (list jsstring) :=
  match words with
  | [] => mret []
  | word :: words' =>
      w ← f word; ws ← map_words f words'; mret (w :: ws)
  end.

(** [list.forEach(f)] *)
Fixpoint forEach {A B} (f : A → M B) (l : list A) : M unit :=
  match l with
  | [] => mret ()
  | x :: l' => f x ;; forEach f l'
  end.

Section Dictionary.
Context {H : Host}.

(** A read that has found no own property goes on in [Object.prototype]:
    the accessor [__proto__] gives the prototype of the index, the other
    names give functions. *)
Definition object_prototype_get (proto : option entry) (key : jsstring) : Value :=
  if has_proto_accessor && bool_decide (key = js "__proto__") then
    match proto with
    | Some array => tuple array
    | None => builtin
    end
  else if bool_decide (key ∈ object_prototype_names) then builtin
  else undefined.

(** [index[key]] for an index with the own properties [own]: the own
    property, else what the prototype chain has under the key.  An array
    in the place of the prototype has the properties [0], [1] and
    [length], then come [Array.prototype] and [Object.prototype]. *)
Definition get_property (own : gmap jsstring entry) (proto : option entry)
    (key : jsstring) : Value :=
  match own !! key with
  | Some array => tuple array
  | None =>
      match proto with
      | Some (counterpart, regex) =>
          if bool_decide (key = js "0") then str counterpart
          else if bool_decide (key = js "1") then regexp regex
          else if bool_decide (key = js "length") then number 2
          else if bool_decide (key ∈ array_prototype_names) then builtin
          else object_prototype_get proto key
      | None => object_prototype_get proto key
      end
  end.

(** Whether [index[key] = value] runs the setter of [__proto__]: there
    is no own property under the key and the accessor is found in
    [Object.prototype]. *)
Definition sets_prototype (own : gmap jsstring entry) (key : jsstring) : bool :=
  has_proto_accessor && bool_decide (key = js "__proto__")
  && bool_decide (own !! key = None).

(** [index[key] = value]: the setter of [__proto__] makes the array the
    prototype of the index; any other write creates or replaces an own
    property. *)
Definition assign (own : gmap jsstring entry) (proto : option entry)
    (key : jsstring) (value : entry) : gmap jsstring entry * option entry :=
  if sets_prototype own key then (own, Some value)
  else (<[key:=value]> own, proto).

(** [this.#enGB[key]] and [this.#enUS[key]] *)
Definition get_enGB (key : jsstring) : M Value :=
  λ d, (Return (get_property (enGB d) (protoGB d) key), d).
Definition get_enUS (key : jsstring) : M Value :=
  λ d, (Return (get_property (enUS d) (protoUS d) key), d).

(** [this.#enGB[key] = value] and [this.#enUS[key] = value] *)
Definition set_enGB (key : jsstring) (value : entry) : M unit :=
  λ d, (Return (),
        {| enGB := (assign (enGB d) (protoGB d) key value).1;
           enUS := enUS d;
           protoGB := (assign (enGB d) (protoGB d) key value).2;
           protoUS := protoUS d |}).
Definition set_enUS (key : jsstring) (value : entry) : M unit :=
  λ d, (Return (),
        {| enGB := enGB d;
           enUS := (assign (enUS d) (protoUS d) key value).1;
           protoGB := protoGB d;
           protoUS := (assign (enUS d) (protoUS d) key value).2 |}).

(** [delete this.#enGB[key]] and [delete this.#enUS[key]]: own properties
    only. *)
Definition delete_enGB (key : jsstring) : M unit :=
  λ d, (Return (),
        {| enGB := delete key (enGB d); enUS := enUS d;
           protoGB := protoGB d; protoUS := protoUS d |}).
Definition delete_enUS (key : jsstring) : M unit :=
  λ d, (Return (),
        {| enGB := enGB d; enUS := delete key (enUS d);
           protoGB := protoGB d; protoUS := protoUS d |}).

(** [new RegExp(pattern, flags)] *)
Definition new_RegExp (pattern flags : jsstring) : M RegExp := λ d,
  if regexp_compiles pattern flags
  then (Return {| pattern := pattern; flags := flags |}, d)
  else (Throw SyntaxError, d).

(** [word.toLocaleLowerCase(locales)] *)
Definition word_toLocaleLowerCase (word : jsstring) (locales : locales)
    : M jsstring := λ d,
  match toLocaleLowerCase word locales with
  | Some lowered => (Return lowered, d)
  | None => (Throw RangeError, d)
  end.

Definition add (pair : WordPair) : M Dictionary :=
  regex ← new_RegExp (gb pair) (js "gmi");
  set_enGB (gb pair) (us pair, regex) ;;
  regex ← new_RegExp (us pair) (js "gmi");
  set_enUS (us pair) (gb pair, regex) ;;
  this.

(** [new Dictionary(additions)], on the entries of the data set
    [data.ts] in their order. *)
Definition constructor (data : list (jsstring * jsstring))
    (additions : list WordPair) : completion Dictionary * Dictionary :=
  (forEach (λ '(key, value), add {| gb := key; us := value |}) data ;;
   forEach add additions ;;
   this) {| enGB := ∅; enUS := ∅; protoGB := None; protoUS := None |}.

Definition remove (word : jsstring) (locales : locales) : M Dictionary :=
  cleanedWord ← word_toLocaleLowerCase word locales;
  if bool_decide (length cleanedWord = 0) then this else
  enGbExact ← get_enGB word;
  keys ←
    (if negb (falsy enGbExact) then mret (Some word, element0 enGbExact)
     else
       enUsExact ← get_enUS word;
       if negb (falsy enUsExact) then mret (element0 enUsExact, Some word)
       else
         enGbLower ← get_enGB cleanedWord;
         if negb (falsy enGbLower)
         then mret (Some cleanedWord, element0 enGbLower)
         else
           enUsLower ← get_enUS cleanedWord;
           if negb (falsy enUsLower)
           then mret (element0 enUsLower, Some cleanedWord)
           else mret (None, None));
  let '(gbKey, usKey) := keys in
  (if truthy gbKey then delete_enGB (default [] gbKey) else mret ()) ;;
  (if truthy usKey then delete_enUS (default [] usKey) else mret ()) ;;
  this.

(** [entries()]: the pairs the generator yields, one for each own key of
    [#enGB], in the order in which the map enumerates its keys. *)
Definition entries : M (list (jsstring * jsstring)) := λ d,
  (Return ((λ '(gb, (us, _)), (gb, us)) <$> map_to_list (enGB d)), d).

Definition translateGBToUS (word : jsstring) (matchCase : bool) : M jsstring :=
  exact ← get_enGB word;
  entry ←
    (if nullish exact then get_enGB (toLowerCase word) else mret exact);
  lift (translate_entry entry word matchCase).

Definition translateUSToGB (word : jsstring) (matchCase : bool) : M jsstring :=
  exact ← get_enUS word;
  entry ←
    (if nullish exact then get_enUS (toLowerCase word) else mret exact);
  lift (translate_entry entry word matchCase).

(** [gbToUs(words, matchCase = true)]; a [matchCase] left out is [None]. *)
Definition gbToUs (words : Words) (matchCase : option bool) : M Words :=
  let matchCase := default true matchCase in
  match words with
  | WordList words =>
      out ← map_words (λ word, translateGBToUS word matchCase) words;
      mret (WordList out)
  | Word word =>
      out ← translateGBToUS word matchCase;
      mret (Word out)
  end.

Definition usToGb (words : Words) (matchCase : option bool) : M Words :=
  let matchCase := default true matchCase in
  match words with
  | WordList words =>
      out ← map_words (λ word, translateUSToGB word matchCase) words;
      mret (WordList out)
  | Word word =>
      out ← translateUSToGB word matchCase;
      mret (Word out)
  end.
End Dictionary.

(** The two directional variants of the translation, under one name. *)
Inductive Direction := GB_TO_US | US_TO_GB.

Section Translate.
Context {H : Host}.

Definition translate (direction : Direction) (words : Words)
    (matchCase : option bool) : M Words :=
  match direction with
  | GB_TO_US => gbToUs words matchCase
  | US_TO_GB => usToGb words matchCase
  end.

(** The own properties of the index a direction reads, and the array in
    the place of its prototype. *)
Definition index (direction : Direction) (d : Dictionary)
    : gmap jsstring entry :=
  match direction with
  | GB_TO_US => enGB d
  | US_TO_GB => enUS d
  end.

Definition index_proto (direction : Direction) (d : Dictionary)
    : option entry :=
  match direction with
  | GB_TO_US => protoGB d
  | US_TO_GB => protoUS d
  end.

(** What a read of the index of a direction yields. *)
Definition read (direction : Direction) (d : Dictionary) (key : jsstring)
    : Value :=
  get_property (index direction d) (index_proto direction d) key.

(** The completion of a translation of one word, from the own properties
    and the prototype of the index: the exact key, and the lowercase key
    when the exact key gives [undefined]. *)
Definition translate_in (own : gmap jsstring entry) (proto : option entry)
    (word : jsstring) (matchCase : bool) : completion jsstring :=
  let exact := get_property own proto word in
  let entry :=
    if nullish exact then get_property own proto (toLowerCase word)
    else exact in
  translate_entry entry word matchCase.
End Translate.

(** The completions of a list of calls in order: the results, or the
    first error. *)
Fixpoint collect {A} (l : list (completion A)) : completion (list A) :=
  match l with
  | [] => Return []
  | Return a :: l' =>
      match collect l' with
      | Return rest => Return (a :: rest)
      | Throw e => Throw e
      end
  | Throw e :: _ => Throw e
  end.

Definition completion_map {A B} (f : A → B) (c : completion A) : completion B :=
  match c with
  | Return a => Return (f a)
  | Throw e => Throw e
  end.

(** ** The specification's statements *)

Section Specification.
Context {H : Host}.

(** The specification's [mirrorCase] is [_matchCase]. *)
Definition mirrorCase (candidate pattern : jsstring) : jsstring :=
  _matchCase candidate pattern.

(** A character that is a capital letter of Basic Latin, [A] to [Z]. *)
Definition basic_capital (c : jsstring) : bool :=
  match c with
  | [u] => (65 <=? u)%N && (u <=? 90)%N
  | _ => false
  end.

(** A character that is uppercase for the host: it is its own uppercase
    form and not its own lowercase form. *)
Definition uppercase_character (c : jsstring) : bool :=
  bool_decide (c = toUpperCase c) && negb (bool_decide (c = toLowerCase c)).

(** The per-character transfer at index [i], for a given reading
    [is_upper] of which pattern characters are uppercase. *)
Definition transfer (is_upper : jsstring → bool)
    (candidate pattern : jsstring) (i : nat) : jsstring :=
  let c := charAt candidate i in
  let p := charAt pattern i in
  if bool_decide (toLowerCase c = toLowerCase p)
  then (if is_upper p then toUpperCase c else toLowerCase c)
  else c.

(** The result of the mixed rule: the transfers at the indices below the
    shorter length, then the surplus of the candidate. *)
Definition mixed_spec (is_upper : jsstring → bool)
    (candidate pattern : jsstring) : jsstring :=
  concat (transfer is_upper candidate pattern
            <$> seq 0 (length candidate `min` length pattern))
  ++ drop (length pattern) candidate.

(** The entry under [gbKey] in the GB index and the entry under [usKey]
    in the US index are deleted, and nothing else is changed. *)
Definition remove_pair (gbKey usKey : jsstring) (d : Dictionary) : Dictionary :=
  {| enGB := delete gbKey (enGB d); enUS := delete usKey (enUS d);
     protoGB := protoGB d; protoUS := protoUS d |}.

(** The resolution order of [remove] in the specification's words, for a
    word and its locale-lowercased form: the entry matched and the key
    of its counterpart in the other index are deleted. *)
Definition remove_spec (word lowered : jsstring) (d : Dictionary) : Dictionary :=
  match enGB d !! word with
  | Some (us, _) => remove_pair word us d
  | None =>
      match enUS d !! word with
      | Some (gb, _) => remove_pair gb word d
      | None =>
          match enGB d !! lowered with
          | Some (us, _) => remove_pair lowered us d
          | None =>
              match enUS d !! lowered with
              | Some (gb, _) => remove_pair gb lowered d
              | None => d
              end
          end
      end
  end.

(** The keys [remove] settles on, [(gbKey, usKey)], for a word and its
    locale-lowercased form: the four reads of [remove] in their order,
    each taken when what it yields is truthy. *)
Definition remove_keys (d : Dictionary) (word cleanedWord : jsstring)
    : option jsstring * option jsstring :=
  let enGbExact := get_property (enGB d) (protoGB d) word in
  if negb (falsy enGbExact) then (Some word, element0 enGbExact) else
  let enUsExact := get_property (enUS d) (protoUS d) word in
  if negb (falsy enUsExact) then (element0 enUsExact, Some word) else
  let enGbLower := get_property (enGB d) (protoGB d) cleanedWord in
  if negb (falsy enGbLower) then (Some cleanedWord, element0 enGbLower) else
  let enUsLower := get_property (enUS d) (protoUS d) cleanedWord in
  if negb (falsy enUsLower) then (element0 enUsLower, Some cleanedWord)
  else (None, None).

(** The state after the two guarded deletions at the end of [remove]. *)
Definition delete_keys (keys : option jsstring * option jsstring)
    (d : Dictionary) : Dictionary :=
  {| enGB := if truthy keys.1 then delete (default [] keys.1) (enGB d)
             else enGB d;
     enUS := if truthy keys.2 then delete (default [] keys.2) (enUS d)
             else enUS d;
     protoGB := protoGB d; protoUS := protoUS d |}.

(** The state [add] reaches when it returns: both words written under
    themselves as keys, as they were given. *)
Definition added (pair : WordPair) (d : Dictionary) : Dictionary :=
  let valueGB := (us pair, {| pattern := gb pair; flags := js "gmi" |}) in
  let valueUS := (gb pair, {| pattern := us pair; flags := js "gmi" |}) in
  {| enGB := (assign (enGB d) (protoGB d) (gb pair) valueGB).1;
     enUS := (assign (enUS d) (protoUS d) (us pair) valueUS).1;
     protoGB := (assign (enGB d) (protoGB d) (gb pair) valueGB).2;
     protoUS := (assign (enUS d) (protoUS d) (us pair) valueUS).2 |}.

(** Both words of a pair are patterns the host compiles. *)
Definition compiles (pair : WordPair) : bool :=
  regexp_compiles (gb pair) (js "gmi") && regexp_compiles (us pair) (js "gmi").
End Specification.

(** The names under which an index can inherit a property: those of an
    array, of [Array.prototype] and of [Object.prototype]. *)
Definition inherited_names : list jsstring :=
  js "0" :: js "1" :: js "length" :: js "__proto__"
  :: array_prototype_names ++ object_prototype_names.

(** A name under which no index inherits a property. *)
Definition plain_name (key : jsstring) : bool :=
  bool_decide (key ∉ inherited_names).

(** The dictionary with no entry. *)
Definition empty_dictionary : Dictionary :=
  {| enGB := ∅; enUS := ∅; protoGB := None; protoUS := None |}.

(** Two strings with the same letters, whatever their case: their Basic
    Latin lowercase forms are equal. *)
Definition same_letters (a b : jsstring) : Prop :=
  basic_lower <$> a = basic_lower <$> b.

(** The pairs [new Dictionary(additions)] hands to [add], in order: those
    of the data set, then the additions. *)
Definition constructor_pairs (data : list (jsstring * jsstring))
    (additions : list WordPair) : list WordPair :=
  ((λ '(key, value), {| gb := key; us := value |}) <$> data) ++ additions.

(** Whether all the units of a string are Basic Latin. *)
Definition basic_latinb (s : jsstring) : bool :=
  forallb (λ u, (u <? 128)%N) s.

(** ** Dictionaries and words of the examples, on the Latin-1 host *)

Definition colour_pair : WordPair := {| gb := js "colour"; us := js "color" |}.
Definition hue_pair : WordPair := {| gb := js "colour"; us := js "hue" |}.
Definition mouldy_pair : WordPair := {| gb := js "mouldy"; us := js "moldy" |}.

(** A pair whose American word is no pattern: an open parenthesis. *)
Definition refused_pair : WordPair := {| gb := js "x"; us := js "(" |}.

(** A data set with a word that is no pattern. *)
Definition refused_data : list (jsstring * jsstring) :=
  [ (js "colour", js "color"); (js "(", js "x") ].

Definition gaol_dictionary : Dictionary :=
  added (H:=Latin1.host) {| gb := js "Gaol"; us := js "Jail" |} empty_dictionary.

Definition colour_dictionary : Dictionary :=
  added (H:=Latin1.host) colour_pair empty_dictionary.

Definition mouldy_dictionary : Dictionary :=
  added (H:=Latin1.host) mouldy_pair empty_dictionary.

(** [colour_dictionary] after [add({gb: "colour", us: "hue"})]. *)
Definition hue_dictionary : Dictionary :=
  added (H:=Latin1.host) hue_pair colour_dictionary.

(** The state after [add({gb: "", us: "x"})] on no entry. *)
Definition empty_key_dictionary : Dictionary :=
  added (H:=Latin1.host) {| gb := []; us := js "x" |} empty_dictionary.

(** The state after [add({gb: "x", us: ""})] on no entry. *)
Definition empty_counterpart_dictionary : Dictionary :=
  added (H:=Latin1.host) {| gb := js "x"; us := [] |} empty_dictionary.

(** The state after [add({gb: "builder", us: "constructor"})] on no
    entry. *)
Definition builder_dictionary : Dictionary :=
  added (H:=Latin1.host) {| gb := js "builder"; us := js "constructor" |}
    empty_dictionary.

(** The state after [add({gb: "__proto__", us: "x"})] on no entry: no own
    key in the GB index, whose prototype is now the array. *)
Definition proto_dictionary : Dictionary :=
  added (H:=Latin1.host) {| gb := js "__proto__"; us := js "x" |}
    empty_dictionary.

(** Pairs of the data set that the tests of [mod.test.ts] rely on. *)
Definition test_data : list (jsstring * jsstring) :=
  [ (js "colour", js "color"); (js "centre", js "center");
    (js "aeroplane", js "airplane"); (js "greyish", js "grayish");
    (js "fibre", js "fiber") ].

(** [aé] and [aÉ] *)
Definition a_e_acute : jsstring := [97; 233]%N.
Definition a_E_acute : jsstring := [97; 201]%N.

(** ** Strings and the Latin-1 host *)

Lemma charAt_0_cons (u : N) (s : jsstring) : charAt (u :: s) 0 = [u].
Proof. reflexivity. Qed.

Lemma isRefUpper_unit (u : N) :
  isRefUpper [u] = (65 <=? u)%N && (u <=? 90)%N.
Proof.
  unfold isRefUpper, str_ge, str_le.
  change (js "A") with [65%N]. change (js "Z") with [90%N].
  unfold str_lt.
  destruct (N.ltb_spec u 65), (N.ltb_spec 65 u), (N.ltb_spec 90 u),
    (N.ltb_spec u 90), (N.leb_spec 65 u), (N.leb_spec u 90);
    simpl; try reflexivity; lia.
Qed.

(** On the strings [charAt] returns, the test of the loop is the test for
    a capital of Basic Latin. *)
Lemma isRefUpper_charAt (s : jsstring) (i : nat) :
  isRefUpper (charAt s i) = basic_capital (charAt s i).
Proof.
  unfold charAt. destruct (s !! i) as [u|]; [|reflexivity].
  apply isRefUpper_unit.
Qed.

Module Latin1Laws.
Import Latin1.

Lemma upper_unit_basic (u : N) :
  basic_latin u → upper_unit u = [basic_upper u].
Proof.
  unfold basic_latin, upper_unit, basic_upper. intros Hu.
  destruct ((97 <=? u)%N && (u <=? 122)%N); [done|].
  repeat match goal with
  | |- context [(?a =? ?b)%N] => destruct (N.eqb_spec a b); [lia|]
  | |- context [(?a <=? ?b)%N] => destruct (N.leb_spec a b); [lia|]
  end. done.
Qed.

Lemma lower_unit_basic (u : N) :
  basic_latin u → lower_unit u = basic_lower u.
Proof.
  unfold basic_latin, lower_unit, basic_lower. intros Hu.
  destruct ((65 <=? u)%N && (u <=? 90)%N); [done|].
  destruct (N.leb_spec 192 u); [lia|]. done.
Qed.

#[global] Instance host_laws : HostLaws host.
Proof.
  split; intros s Hs; simpl.
  - induction Hs as [|u s Hu _ IH]; [done|].
    cbn. rewrite (upper_unit_basic u Hu). simpl. by f_equal.
  - induction Hs as [|u s Hu _ IH]; [done|].
    cbn. rewrite (lower_unit_basic u Hu). by f_equal.
Qed.
End Latin1Laws.

(** ** [_matchCase] *)

Section MatchCaseFacts.
Context {H : Host}.

(** The loop pushes the bodies of the indices it runs through, in
    order. *)
Lemma mixed_loop_seq (input toMatch : jsstring) (steps i : nat)
    (out : list jsstring) :
  mixed_loop input toMatch steps i out
  = out ++ (mixed_body input toMatch <$> seq i steps).
Proof.
  revert i out. induction steps as [|steps IH]; intros i out.
  - simpl. by rewrite app_nil_r.
  - simpl. rewrite IH. unfold push. by rewrite <- app_assoc.
Qed.

Lemma mixed_body_transfer (input toMatch : jsstring) (i : nat) :
  mixed_body input toMatch i = transfer basic_capital input toMatch i.
Proof.
  unfold mixed_body, transfer. by rewrite isRefUpper_charAt.
Qed.

Lemma mixed_case_spec (input toMatch : jsstring) :
  mixed_case input toMatch = mixed_spec basic_capital input toMatch.
Proof.
  unfold mixed_case, mixed_spec, join, push, slice.
  rewrite mixed_loop_seq. simpl.
  rewrite (list_fmap_ext (mixed_body input toMatch)
             (transfer basic_capital input toMatch))
    by (intros; apply mixed_body_transfer).
  case_bool_decide as Hlen.
  - rewrite concat_app. simpl. by rewrite app_nil_r.
  - rewrite (drop_ge input) by lia. by rewrite app_nil_r.
Qed.

(** The guard of [_matchCase] lets two strings that are not empty
    through. *)
Lemma matchCase_nonempty (input toMatch : jsstring) :
  input ≠ [] → toMatch ≠ [] →
  _matchCase input toMatch
  = if isTitleCase toMatch
    then toUpperCase (charAt input 0) ++ toLowerCase (slice input 1)
    else if isAllUpper toMatch then toUpperCase input
    else if isAllLower toMatch then toLowerCase input
    else mixed_case input toMatch.
Proof.
  intros Hi Hm. unfold _matchCase.
  destruct input as [|u input]; [done|].
  destruct toMatch as [|v toMatch]; [done|].
  reflexivity.
Qed.

(** With an empty pattern the input comes back as it is. *)
Lemma matchCase_empty_pattern (input : jsstring) :
  _matchCase input [] = input.
Proof.
  unfold _matchCase. simpl. by rewrite orb_true_r.
Qed.

(** ** C8 *)

(** C8: for a candidate that is not empty and a pattern of one character
    that equals its own uppercase form, [mirrorCase] takes the Titlecase
    rule: it returns the first character of the candidate in uppercase
    followed by the rest of the candidate in lowercase. *)
Theorem mirrorCase_single_uppercase `{!HostLaws H}
    (candidate : jsstring) (u : N) :
  candidate ≠ [] →
  [u] = toUpperCase [u] →
  mirrorCase candidate [u]
  = toUpperCase (charAt candidate 0) ++ toLowerCase (slice candidate 1).
Proof.
  intros Hc Hu.
  unfold mirrorCase. rewrite matchCase_nonempty by done.
  assert (isTitleCase [u] = true) as ->; [|done].
  unfold isTitleCase. rewrite charAt_0_cons.
  rewrite bool_decide_eq_true_2 by done. simpl.
  apply bool_decide_eq_true_2. unfold slice. simpl.
  by rewrite toLowerCase_basic.
Qed.
End MatchCaseFacts.

(** ** Property reads and writes *)

Section PropertyFacts.
Context {H : Host}.

Lemma get_property_own (own : gmap jsstring entry) (proto : option entry)
    (key : jsstring) (array : entry) :
  own !! key = Some array → get_property own proto key = tuple array.
Proof. intros Hown. unfold get_property. by rewrite Hown. Qed.

Lemma plain_name_spec (key : jsstring) :
  plain_name key = true →
  key ≠ js "0" ∧ key ≠ js "1" ∧ key ≠ js "length" ∧ key ≠ js "__proto__"
  ∧ (key ∉ array_prototype_names) ∧ (key ∉ object_prototype_names).
Proof.
  unfold plain_name, inherited_names. intros Hplain%bool_decide_eq_true_1.
  do 4 (apply not_elem_of_cons in Hplain as [? Hplain]).
  apply not_elem_of_app in Hplain as [? ?]. done.
Qed.

(** Under a plain name an index has its own property or nothing. *)
Lemma get_property_plain (own : gmap jsstring entry) (proto : option entry)
    (key : jsstring) :
  plain_name key = true → own !! key = None →
  get_property own proto key = undefined.
Proof.
  intros (H0 & H1 & Hlength & Hproto & Harray & Hobject)%plain_name_spec Hown.
  unfold get_property, object_prototype_get. rewrite Hown.
  rewrite (bool_decide_eq_false_2 (key = js "__proto__")) by done.
  rewrite (bool_decide_eq_false_2 (key ∈ object_prototype_names)) by done.
  rewrite andb_false_r.
  destruct proto as [[counterpart regex]|]; [|done].
  rewrite (bool_decide_eq_false_2 (key = js "0")) by done.
  rewrite (bool_decide_eq_false_2 (key = js "1")) by done.
  rewrite (bool_decide_eq_false_2 (key = js "length")) by done.
  by rewrite (bool_decide_eq_false_2 (key ∈ array_prototype_names)) by done.
Qed.

(** Through the accessor, [__proto__] reads the array in the place of
    the prototype. *)
Lemma get_property_proto (own : gmap jsstring entry) (array : entry) :
  has_proto_accessor = true → own !! js "__proto__" = None →
  get_property own (Some array) (js "__proto__") = tuple array.
Proof.
  intros Haccessor Hown. unfold get_property, object_prototype_get.
  rewrite Hown, Haccessor. by destruct array.
Qed.

(** A read yields an array only from an own property or through the
    accessor [__proto__]. *)
Lemma get_property_tuple_inv (own : gmap jsstring entry) (proto : option entry)
    (key : jsstring) (array : entry) :
  get_property own proto key = tuple array →
  own !! key = Some array
  ∨ (own !! key = None ∧ has_proto_accessor = true
     ∧ key = js "__proto__" ∧ proto = Some array).
Proof.
  unfold get_property, object_prototype_get.
  destruct (own !! key) as [own_array|]; [intros [= ->]; by left|].
  intros Hget. right.
  assert (has_proto_accessor && bool_decide (key = js "__proto__") = true
          ∧ proto = Some array) as [[Ha Hk%bool_decide_eq_true_1]%andb_prop Hp].
  { destruct proto as [[counterpart regex]|];
      repeat (case_bool_decide; try done);
      destruct (has_proto_accessor && _) eqn:E; try done;
      split; try done; by injection Hget as ->. }
  done.
Qed.

(** After [index[key] = value] a read of the key yields the value. *)
Lemma get_assign_eq (own : gmap jsstring entry) (proto : option entry)
    (key : jsstring) (value : entry) :
  get_property (assign own proto key value).1 (assign own proto key value).2 key
  = tuple value.
Proof.
  unfold assign. destruct (sets_prototype own key) eqn:Hsets; simpl.
  - unfold sets_prototype in Hsets.
    apply andb_prop in Hsets as [[Ha Hk%bool_decide_eq_true_1]%andb_prop
                                   Hown%bool_decide_eq_true_1].
    subst key. by apply get_property_proto.
  - apply get_property_own. by rewrite lookup_insert_eq.
Qed.

(** A write leaves the own properties under the other keys alone. *)
Lemma assign_own_ne (own : gmap jsstring entry) (proto : option entry)
    (k key : jsstring) (value : entry) :
  k ≠ key → (assign own proto k value).1 !! key = own !! key.
Proof.
  intros Hne. unfold assign. destruct (sets_prototype own k); simpl; [done|].
  by rewrite lookup_insert_ne.
Qed.

(** A write that creates an own property leaves the reads of the other
    keys alone. *)
Lemma get_assign_ne_own (own : gmap jsstring entry) (proto : option entry)
    (k key : jsstring) (value : entry) :
  k ≠ key → sets_prototype own k = false →
  get_property (assign own proto k value).1 (assign own proto k value).2 key
  = get_property own proto key.
Proof.
  intros Hne Hsets. unfold assign. rewrite Hsets. simpl.
  unfold get_property. by rewrite lookup_insert_ne.
Qed.

(** A write leaves alone a read of another key that yields an array. *)
Lemma get_assign_ne_tuple (own : gmap jsstring entry) (proto : option entry)
    (k key : jsstring) (value array : entry) :
  k ≠ key →
  get_property own proto key = tuple array →
  get_property (assign own proto k value).1 (assign own proto k value).2 key
  = tuple array.
Proof.
  intros Hne Hget.
  destruct (sets_prototype own k) eqn:Hsets;
    [|by rewrite get_assign_ne_own].
  apply get_property_tuple_inv in Hget as [Hown|(_ & _ & -> & _)].
  - apply get_property_own. by rewrite assign_own_ne.
  - unfold sets_prototype in Hsets.
    apply andb_prop in Hsets as [[_ Hk%bool_decide_eq_true_1]%andb_prop _].
    done.
Qed.

(** Writing the same value under the same key twice is writing it
    once. *)
Lemma assign_assign (own : gmap jsstring entry) (proto : option entry)
    (key : jsstring) (value : entry) :
  assign (assign own proto key value).1 (assign own proto key value).2 key value
  = assign own proto key value.
Proof.
  unfold assign at 2 3 4. destruct (sets_prototype own key) eqn:Hsets; simpl.
  - unfold assign. by rewrite Hsets.
  - unfold assign, sets_prototype. rewrite lookup_insert_eq.
    rewrite (bool_decide_eq_false_2 (Some value = None)) by done.
    rewrite andb_false_r. by rewrite insert_insert_eq.
Qed.
End PropertyFacts.

(** ** The methods of [Dictionary] *)

(** Runs the monadic plumbing of a method body. *)
Ltac run :=
  unfold mbind, M_bind, mret, M_ret, this, lift,
    get_enGB, get_enUS, set_enGB, set_enUS, delete_enGB, delete_enUS;
  simpl.

Section DictionaryFacts.
Context {H : Host}.

Lemma translateGBToUS_run (word : jsstring) (matchCase : bool) (d : Dictionary) :
  translateGBToUS word matchCase d
  = (translate_in (enGB d) (protoGB d) word matchCase, d).
Proof.
  unfold translateGBToUS, translate_in. run.
  by destruct (nullish (get_property (enGB d) (protoGB d) word)).
Qed.

Lemma translateUSToGB_run (word : jsstring) (matchCase : bool) (d : Dictionary) :
  translateUSToGB word matchCase d
  = (translate_in (enUS d) (protoUS d) word matchCase, d).
Proof.
  unfold translateUSToGB, translate_in. run.
  by destruct (nullish (get_property (enUS d) (protoUS d) word)).
Qed.

(** [map] over a callback that leaves the state alone collects its
    completions. *)
Lemma map_words_pure (f : jsstring → M jsstring)
    (g : jsstring → completion jsstring)
    (words : list jsstring) (d : Dictionary) :
  (∀ word, f word d = (g word, d)) →
  map_words f words d = (collect (g <$> words), d).
Proof.
  intros Hf. induction words as [|word words IH]; [done|].
  rewrite fmap_cons. cbn [map_words collect]. unfold mbind, M_bind.
  rewrite Hf. destruct (g word) as [res|err]; [|done]. rewrite IH.
  by destruct (collect (g <$> words)).
Qed.

Lemma translate_word (direction : Direction) (word : jsstring)
    (matchCase : option bool) (d : Dictionary) :
  translate direction (Word word) matchCase d
  = (completion_map Word
       (translate_in (index direction d) (index_proto direction d) word
          (default true matchCase)), d).
Proof.
  destruct direction; simpl; unfold gbToUs, usToGb, mbind, M_bind.
  - rewrite translateGBToUS_run. by destruct (translate_in _ _ _ _).
  - rewrite translateUSToGB_run. by destruct (translate_in _ _ _ _).
Qed.

Lemma translate_words (direction : Direction) (words : list jsstring)
    (matchCase : option bool) (d : Dictionary) :
  translate direction (WordList words) matchCase d
  = (completion_map WordList
       (collect ((λ word, translate_in (index direction d)
                            (index_proto direction d) word
                            (default true matchCase)) <$> words)), d).
Proof.
  destruct direction; simpl; unfold gbToUs, usToGb, mbind, M_bind.
  - erewrite map_words_pure by (intros; apply translateGBToUS_run).
    by destruct (collect _).
  - erewrite map_words_pure by (intros; apply translateUSToGB_run).
    by destruct (collect _).
Qed.

(** The word is a key that reads as an array: its first element is the
    counterpart. *)
Lemma translate_in_tuple (own : gmap jsstring entry) (proto : option entry)
    (word target : jsstring) (regex : RegExp) (matchCase : bool) :
  get_property own proto word = tuple (target, regex) →
  translate_in own proto word matchCase
  = Return (if matchCase then _matchCase target word else target).
Proof. intros Hget. unfold translate_in. by rewrite Hget. Qed.

(** Neither the word nor its lowercase form reads as anything. *)
Lemma translate_in_absent (own : gmap jsstring entry) (proto : option entry)
    (word : jsstring) (matchCase : bool) :
  get_property own proto word = undefined →
  get_property own proto (toLowerCase word) = undefined →
  translate_in own proto word matchCase = Return word.
Proof. intros Hword Hlower. unfold translate_in. by rewrite Hword, Hlower. Qed.

Lemma gbToUs_found (word target : jsstring) (regex : RegExp)
    (matchCase : option bool) (d : Dictionary) :
  get_property (enGB d) (protoGB d) word = tuple (target, regex) →
  gbToUs (Word word) matchCase d
  = (Return (Word (if default true matchCase
                   then _matchCase target word else target)), d).
Proof.
  intros Hget.
  change (gbToUs (Word word) matchCase d)
    with (translate GB_TO_US (Word word) matchCase d).
  rewrite translate_word. simpl. by erewrite translate_in_tuple.
Qed.

Lemma usToGb_found (word target : jsstring) (regex : RegExp)
    (matchCase : option bool) (d : Dictionary) :
  get_property (enUS d) (protoUS d) word = tuple (target, regex) →
  usToGb (Word word) matchCase d
  = (Return (Word (if default true matchCase
                   then _matchCase target word else target)), d).
Proof.
  intros Hget.
  change (usToGb (Word word) matchCase d)
    with (translate US_TO_GB (Word word) matchCase d).
  rewrite translate_word. simpl. by erewrite translate_in_tuple.
Qed.

(** ** C1 *)

(** C1, on the code: when the index of the direction has no own property
    under the word and inherits one from its prototype chain, as a plain
    object does under [constructor] or [toString], the read yields a
    function, [const [x] = entry] throws a [TypeError] and the
    translation does not return the word; the same when the word reads
    as [undefined] and its lowercase form reads as a function, as for
    [Constructor].  The claim has the word returned unchanged. *)
Theorem translate_throws_on_inherited (direction : Direction)
    (word : jsstring) (matchCase : option bool) (d : Dictionary) :
  read direction d word = builtin
  ∨ (read direction d word = undefined
     ∧ read direction d (toLowerCase word) = builtin) →
  translate direction (Word word) matchCase d = (Throw TypeError, d).
Proof.
  unfold read. intros Hread. rewrite translate_word. unfold translate_in.
  destruct Hread as [Hword|[Hword Hlower]].
  - by rewrite Hword.
  - by rewrite Hword, Hlower.
Qed.

(** ** C10 *)

(** C10: for every state, every word or list of words, both directions
    and every [matchCase], the translation returns in a state equal to
    the one it started in, so both indices are unchanged and [entries()]
    yields the same sequence after the call as before. *)
Theorem translate_read_only (direction : Direction) (words : Words)
    (matchCase : option bool) (d : Dictionary) :
  let d' := (translate direction words matchCase d).2 in
  d' = d ∧ enGB d' = enGB d ∧ enUS d' = enUS d
  ∧ (entries d').1 = (entries d).1.
Proof.
  assert ((translate direction words matchCase d).2 = d) as Hd.
  { destruct words as [word|words].
    - by rewrite translate_word.
    - by rewrite translate_words. }
  simpl. by rewrite Hd.
Qed.

(** ** [add] *)

Lemma add_returns (pair : WordPair) (d : Dictionary) :
  regexp_compiles (gb pair) (js "gmi") = true →
  regexp_compiles (us pair) (js "gmi") = true →
  add pair d = (Return (added pair d), added pair d).
Proof.
  intros Hgb Hus. unfold add, new_RegExp. run. by rewrite Hgb, Hus.
Qed.

Lemma add_returns_inv (pair : WordPair) (d d' r : Dictionary) :
  add pair d = (Return r, d') →
  r = d' ∧ d' = added pair d.
Proof.
  unfold add, new_RegExp. run.
  destruct (regexp_compiles (gb pair) (js "gmi")); [|done].
  destruct (regexp_compiles (us pair) (js "gmi")); [|done].
  by intros [= <- <-].
Qed.

(** When the second pattern is refused the first index is already
    written. *)
Lemma add_throws_us (pair : WordPair) (d : Dictionary) :
  regexp_compiles (gb pair) (js "gmi") = true →
  regexp_compiles (us pair) (js "gmi") = false →
  add pair d
  = (Throw SyntaxError,
     {| enGB := enGB (added pair d); enUS := enUS d;
        protoGB := protoGB (added pair d); protoUS := protoUS d |}).
Proof.
  intros Hgb Hus. unfold add, new_RegExp. run. by rewrite Hgb, Hus.
Qed.

(** ** C4 *)

(** C4, on the code: when the host refuses [gb] as the pattern of a
    regular expression, [add] throws the [SyntaxError] of
    [new RegExp(gb, "gmi")] and inserts nothing, where the claim has it
    complete for every pair of strings. *)
Theorem add_throws_gb (pair : WordPair) (d : Dictionary) :
  regexp_compiles (gb pair) (js "gmi") = false →
  add pair d = (Throw SyntaxError, d).
Proof.
  intros Hgb. unfold add, new_RegExp. run. by rewrite Hgb.
Qed.

(** After an [add] that returns, each word reads as the array of the
    other. *)
Lemma added_get_gb (pair : WordPair) (d : Dictionary) :
  get_property (enGB (added pair d)) (protoGB (added pair d)) (gb pair)
  = tuple (us pair, {| pattern := gb pair; flags := js "gmi" |}).
Proof. apply get_assign_eq. Qed.

Lemma added_get_us (pair : WordPair) (d : Dictionary) :
  get_property (enUS (added pair d)) (protoUS (added pair d)) (us pair)
  = tuple (gb pair, {| pattern := us pair; flags := js "gmi" |}).
Proof. apply get_assign_eq. Qed.

(** ** C7 *)

(** C7: in a dictionary whose GB index maps [g] to [u1] and whose US
    index maps [u1] to [g], after [add({gb: g, us: u2})] with [u2]
    distinct from [u1], [gbToUs(g, false)] returns [u2],
    [usToGb(u1, false)] still returns [g], and every entry of the GB
    index under a key other than [g] and every entry of the US index
    under a key other than [u2] is as it was. *)
Theorem add_override_keeps_reverse (d d' r : Dictionary)
    (g u1 u2 : jsstring) (regex1 regex2 : RegExp) :
  enGB d !! g = Some (u1, regex1) →
  enUS d !! u1 = Some (g, regex2) →
  u2 ≠ u1 →
  add {| gb := g; us := u2 |} d = (Return r, d') →
  gbToUs (Word g) (Some false) d' = (Return (Word u2), d')
  ∧ usToGb (Word u1) (Some false) d' = (Return (Word g), d')
  ∧ (∀ key, key ≠ g → enGB d' !! key = enGB d !! key)
  ∧ (∀ key, key ≠ u2 → enUS d' !! key = enUS d !! key).
Proof.
  intros Hgb Hus Hne Hadd.
  apply add_returns_inv in Hadd as [-> ->].
  split; [|split; [|split]].
  - erewrite gbToUs_found; [done|].
    apply (added_get_gb {| gb := g; us := u2 |} d).
  - erewrite usToGb_found; [done|].
    apply get_property_own. simpl. by rewrite assign_own_ne.
  - intros key Hkey. simpl. by rewrite assign_own_ne.
  - intros key Hkey. simpl. by rewrite assign_own_ne.
Qed.
End DictionaryFacts.

(** ** [remove] *)

Section RemoveFacts.
Context {H : Host}.

Lemma dictionary_eta (d : Dictionary) :
  {| enGB := enGB d; enUS := enUS d;
     protoGB := protoGB d; protoUS := protoUS d |} = d.
Proof. by destruct d. Qed.


(** An empty lowercased word stops [remove] at its guard. *)
Lemma remove_empty (word : jsstring) (l : locales) (d : Dictionary) :
  toLocaleLowerCase word l = Some [] → remove word l d = (Return d, d).
Proof.
  intros Hl. unfold remove, word_toLocaleLowerCase, mbind, M_bind.
  by rewrite Hl.
Qed.

(** Past the guard, [remove] deletes under the keys its four reads
    settle on and returns the instance. *)
Lemma remove_run (word cleanedWord : jsstring) (l : locales) (d : Dictionary) :
  toLocaleLowerCase word l = Some cleanedWord → cleanedWord ≠ [] →
  remove word l d
  = (Return (delete_keys (remove_keys d word cleanedWord) d),
     delete_keys (remove_keys d word cleanedWord) d).
Proof.
  intros Hl Hne.
  assert (∀ keys,
    (let '(gbKey, usKey) := keys in
     (if truthy gbKey then delete_enGB (default [] gbKey) else mret ()) ;;
     (if truthy usKey then delete_enUS (default [] usKey) else mret ()) ;;
     this) d = (Return (delete_keys keys d), delete_keys keys d)) as Htail.
  { intros [gbKey usKey]. unfold delete_keys. simpl.
    destruct (truthy gbKey), (truthy usKey); run;
      by rewrite ?dictionary_eta. }
  unfold remove, word_toLocaleLowerCase. unfold mbind at 1, M_bind at 1.
  rewrite Hl.
  rewrite bool_decide_eq_false_2
    by (intros Hlen; by apply nil_length_inv in Hlen).
  unfold remove_keys.
  unfold mbind at 1, M_bind at 1. unfold get_enGB at 1.
  unfold mbind at 1, M_bind at 1.
  destruct (falsy (get_property (enGB d) (protoGB d) word)); cbn [negb];
    [|exact (Htail (Some word, _))].
  unfold mbind at 1, M_bind at 1. unfold get_enUS at 1.
  destruct (falsy (get_property (enUS d) (protoUS d) word)); cbn [negb];
    [|exact (Htail (_, Some word))].
  unfold mbind at 1, M_bind at 1. unfold get_enGB at 1.
  destruct (falsy (get_property (enGB d) (protoGB d) cleanedWord)); cbn [negb];
    [|exact (Htail (Some cleanedWord, _))].
  unfold mbind at 1, M_bind at 1. unfold get_enUS at 1.
  destruct (falsy (get_property (enUS d) (protoUS d) cleanedWord)); cbn [negb];
    [exact (Htail (None, None)) | exact (Htail (_, Some cleanedWord))].
Qed.

Lemma truthy_nonempty (key : jsstring) : key ≠ [] → truthy (Some key) = true.
Proof. by destruct key. Qed.

(** Two keys that are not empty are both deleted. *)
Lemma delete_keys_pair (gbKey usKey : jsstring) (d : Dictionary) :
  gbKey ≠ [] → usKey ≠ [] →
  delete_keys (Some gbKey, Some usKey) d = remove_pair gbKey usKey d.
Proof.
  intros Hgb Hus. unfold delete_keys, remove_pair. cbn [fst snd].
  by rewrite !truthy_nonempty.
Qed.

(** ** C3 *)

(** C3, as amended: for every state, every word that is not empty and
    every locale that the host accepts and that gives the word a
    lowercased form that is not empty, [remove] resolves in this order:
    an entry of the GB index under the word; else, the GB index having
    no property under the word, an entry of the US index under the word;
    else, neither index having a property under the word, an entry of
    the GB index under the lowercased form; else an entry of the US
    index under the lowercased form; else, no index having a property
    under either form, nothing is changed.  On a match whose recorded
    counterpart is not empty, it deletes the entry matched and the key
    of the counterpart in the other index, and nothing else; it returns
    the instance. *)
Theorem remove_resolution (word lowered : jsstring) (l : locales)
    (d : Dictionary) :
  word ≠ [] → toLocaleLowerCase word l = Some lowered → lowered ≠ [] →
  (∀ us regex,
     enGB d !! word = Some (us, regex) → us ≠ [] →
     remove word l d = (Return (remove_pair word us d), remove_pair word us d))
  ∧ (∀ gb regex,
       read GB_TO_US d word = undefined →
       enUS d !! word = Some (gb, regex) → gb ≠ [] →
       remove word l d
       = (Return (remove_pair gb word d), remove_pair gb word d))
  ∧ (∀ us regex,
       read GB_TO_US d word = undefined → read US_TO_GB d word = undefined →
       enGB d !! lowered = Some (us, regex) → us ≠ [] →
       remove word l d
       = (Return (remove_pair lowered us d), remove_pair lowered us d))
  ∧ (∀ gb regex,
       read GB_TO_US d word = undefined → read US_TO_GB d word = undefined →
       read GB_TO_US d lowered = undefined →
       enUS d !! lowered = Some (gb, regex) → gb ≠ [] →
       remove word l d
       = (Return (remove_pair gb lowered d), remove_pair gb lowered d))
  ∧ (read GB_TO_US d word = undefined → read US_TO_GB d word = undefined →
     read GB_TO_US d lowered = undefined →
     read US_TO_GB d lowered = undefined →
     remove word l d = (Return d, d)).
Proof.
  intros Hword Hl Hlowered. rewrite (remove_run word lowered) by done.
  unfold read, remove_keys. simpl.
  split; [|split; [|split; [|split]]].
  - intros us regex Hgb Hus.
    rewrite (get_property_own _ _ _ _ Hgb). simpl.
    by rewrite delete_keys_pair.
  - intros gb regex -> Hus Hgb.
    rewrite (get_property_own _ _ _ _ Hus). simpl.
    by rewrite delete_keys_pair.
  - intros us regex -> -> Hgb Hus.
    rewrite (get_property_own _ _ _ _ Hgb). simpl.
    by rewrite delete_keys_pair.
  - intros gb regex -> -> -> Hus Hgb.
    rewrite (get_property_own _ _ _ _ Hus). simpl.
    by rewrite delete_keys_pair.
  - intros -> -> -> ->. simpl. unfold delete_keys. simpl.
    by rewrite dictionary_eta.
Qed.
End RemoveFacts.

(** ** Basic Latin text on a lawful host *)

Lemma basic_latinb_Forall (s : jsstring) :
  basic_latinb s = true → Forall basic_latin s.
Proof.
  unfold basic_latinb. rewrite forallb_forall, Forall_forall.
  intros Hs u Hu. apply N.ltb_lt, Hs. by apply list_elem_of_In.
Qed.

Lemma charAt_basic (s : jsstring) (i : nat) :
  Forall basic_latin s → Forall basic_latin (charAt s i).
Proof.
  intros Hs. unfold charAt. destruct (s !! i) as [u|] eqn:E; [|done].
  apply Forall_singleton. by eapply Forall_lookup_1.
Qed.

Lemma slice_basic (s : jsstring) (start : nat) :
  Forall basic_latin s → Forall basic_latin (slice s start).
Proof. apply Forall_drop. Qed.

Section BasicLatin.
Context {H : Host} `{!HostLaws H}.

Lemma toUpperCase_latin1 (s : jsstring) :
  Forall basic_latin s →
  toUpperCase s = toUpperCase (Host:=Latin1.host) s.
Proof.
  intros Hs. rewrite (toUpperCase_basic s Hs).
  symmetry. by apply (toUpperCase_basic (H:=Latin1.host)).
Qed.

Lemma toLowerCase_latin1 (s : jsstring) :
  Forall basic_latin s →
  toLowerCase s = toLowerCase (Host:=Latin1.host) s.
Proof.
  intros Hs. rewrite (toLowerCase_basic s Hs).
  symmetry. by apply (toLowerCase_basic (H:=Latin1.host)).
Qed.

Lemma toLowerCase_empty : toLowerCase [] = [].
Proof. by rewrite toLowerCase_basic. Qed.

Lemma mixed_body_latin1 (input toMatch : jsstring) (i : nat) :
  Forall basic_latin input → Forall basic_latin toMatch →
  mixed_body input toMatch i = mixed_body (H:=Latin1.host) input toMatch i.
Proof.
  intros Hi Hm. unfold mixed_body.
  rewrite (toUpperCase_latin1 (charAt input i)) by by apply charAt_basic.
  rewrite (toLowerCase_latin1 (charAt input i)) by by apply charAt_basic.
  by rewrite (toLowerCase_latin1 (charAt toMatch i)) by by apply charAt_basic.
Qed.

(** On Basic Latin text every lawful host computes [_matchCase] as the
    Latin-1 host does. *)
Lemma matchCase_latin1 (input toMatch : jsstring) :
  Forall basic_latin input → Forall basic_latin toMatch →
  _matchCase input toMatch = _matchCase (H:=Latin1.host) input toMatch.
Proof.
  intros Hi Hm.
  unfold _matchCase, isTitleCase, isAllUpper, isAllLower, mixed_case.
  rewrite !mixed_loop_seq.
  rewrite (list_fmap_ext (mixed_body input toMatch)
             (mixed_body (H:=Latin1.host) input toMatch))
    by (intros; by apply mixed_body_latin1).
  rewrite (toUpperCase_latin1 (charAt toMatch 0)) by by apply charAt_basic.
  rewrite (toLowerCase_latin1 (slice toMatch 1)) by by apply slice_basic.
  rewrite (toUpperCase_latin1 (charAt input 0)) by by apply charAt_basic.
  rewrite (toLowerCase_latin1 (slice input 1)) by by apply slice_basic.
  rewrite (toUpperCase_latin1 toMatch), (toLowerCase_latin1 toMatch) by done.
  by rewrite (toUpperCase_latin1 input), (toLowerCase_latin1 input) by done.
Qed.

(** ** C6 *)

(** C6: in every dictionary whose GB index has the key [Gaol] with the
    value [Jail] and no entry under the key [gaol], [gbToUs("gaol")]
    returns [gaol] unchanged and [gbToUs("Gaol")] returns [Jail], with
    [matchCase] left out, true or false. *)
Theorem exact_key_precedes_lowercase (d : Dictionary) (regex : RegExp)
    (matchCase : option bool) :
  enGB d !! js "Gaol" = Some (js "Jail", regex) →
  enGB d !! js "gaol" = None →
  gbToUs (Word (js "gaol")) matchCase d = (Return (Word (js "gaol")), d)
  ∧ gbToUs (Word (js "Gaol")) matchCase d = (Return (Word (js "Jail")), d).
Proof.
  intros HGaol Hgaol. split.
  - change (gbToUs (Word (js "gaol")) matchCase d)
      with (translate GB_TO_US (Word (js "gaol")) matchCase d).
    rewrite translate_word. simpl.
    rewrite translate_in_absent; [done| |].
    + by apply get_property_plain.
    + rewrite (toLowerCase_latin1 (js "gaol")) by by apply basic_latinb_Forall.
      change (toLowerCase (Host:=Latin1.host) (js "gaol")) with (js "gaol").
      by apply get_property_plain.
  - erewrite gbToUs_found by by apply get_property_own.
    rewrite (matchCase_latin1 (js "Jail") (js "Gaol"))
      by by apply basic_latinb_Forall.
    by destruct (default true matchCase).
Qed.

(** ** C9 *)

(** C9, as amended: translating the empty string, in either direction
    and with any [matchCase], returns the empty string when the index of
    the direction has no entry under the empty key; when it has one, the
    counterpart stored in that entry is returned as it is. *)
Theorem translate_empty_word (direction : Direction) (d : Dictionary)
    (matchCase : option bool) :
  (index direction d !! [] = None →
   translate direction (Word []) matchCase d = (Return (Word []), d))
  ∧ (∀ target regex,
       index direction d !! [] = Some (target, regex) →
       translate direction (Word []) matchCase d = (Return (Word target), d)).
Proof.
  rewrite translate_word. split.
  - intros Hnone. rewrite translate_in_absent; [done| |].
    + by apply get_property_plain.
    + rewrite toLowerCase_empty. by apply get_property_plain.
  - intros target regex Hsome.
    erewrite translate_in_tuple by by apply get_property_own.
    rewrite matchCase_empty_pattern. by destruct (default true matchCase).
Qed.
End BasicLatin.

(** ** [_matchCase] on Basic Latin text *)

(** Case analysis on the range tests of the Basic Latin mappings. *)
Ltac basic_cases :=
  repeat match goal with
  | |- context [(?a <=? ?b)%N] =>
      lazymatch b with
      | context [if _ then _ else _] => fail
      | _ => destruct (N.leb_spec a b); cbn [andb]
      end
  end;
  intros; try discriminate; try lia.

Lemma basic_lower_upper (c : N) : basic_lower (basic_upper c) = basic_lower c.
Proof.
  unfold basic_lower, basic_upper.
  basic_cases.
Qed.

Lemma basic_lower_lower (c : N) : basic_lower (basic_lower c) = basic_lower c.
Proof.
  unfold basic_lower.
  basic_cases.
Qed.

Lemma basic_upper_latin (c : N) : basic_latin c → basic_latin (basic_upper c).
Proof.
  unfold basic_latin, basic_upper.
  basic_cases.
Qed.

Lemma basic_lower_latin (c : N) : basic_latin c → basic_latin (basic_lower c).
Proof.
  unfold basic_latin, basic_lower.
  basic_cases.
Qed.

(** Two units with the same lowercase form have the same uppercase
    form. *)
Lemma basic_lower_eq_upper (c p : N) :
  basic_lower c = basic_lower p → basic_upper c = basic_upper p.
Proof.
  unfold basic_lower, basic_upper.
  basic_cases.
Qed.

Lemma basic_capital_upper (p : N) :
  basic_capital [p] = true → basic_upper p = p.
Proof.
  unfold basic_capital, basic_upper.
  basic_cases.
Qed.

Lemma basic_capital_lower (p : N) :
  basic_capital [p] = false → basic_lower p = p.
Proof.
  unfold basic_capital, basic_lower.
  basic_cases.
Qed.

Lemma same_letters_upper (a b : jsstring) :
  same_letters a b → basic_upper <$> a = basic_upper <$> b.
Proof.
  unfold same_letters. revert b.
  induction a as [|c a IH]; intros [|p b] Hab; try done.
  simpl in *. injection Hab as Hc Hab.
  f_equal; [by apply basic_lower_eq_upper | by apply IH].
Qed.

Lemma same_letters_length (a b : jsstring) :
  same_letters a b → length a = length b.
Proof.
  intros Hab. by rewrite <- (length_fmap basic_lower a), Hab, length_fmap.
Qed.

(** Pieces that are the units of [t], one for one, concatenate to
    [t]. *)
Lemma concat_pieces (f : nat → jsstring) (t : jsstring) :
  (∀ i x, t !! i = Some x → f i = [x]) →
  concat (f <$> seq 0 (length t)) = t.
Proof.
  induction t as [|x t IH] using rev_ind; intros Hf; [done|].
  rewrite length_app. simpl. rewrite Nat.add_1_r, seq_S, fmap_app, concat_app.
  simpl. rewrite app_nil_r. f_equal.
  - apply IH. intros i y Hi. apply Hf.
    rewrite lookup_app_l; [done|]. by eapply lookup_lt_Some.
  - apply Hf. by rewrite lookup_app_r, Nat.sub_diag.
Qed.

(** Pieces that are the units of [t] up to case, one for one, concatenate
    to the first [n] units of [t] up to case. *)
Lemma concat_pieces_case (f : nat → jsstring) (t : jsstring) (n : nat) :
  n ≤ length t →
  (∀ i x, t !! i = Some x →
     ∃ y, f i = [y] ∧ basic_lower y = basic_lower x ∧ basic_latin y) →
  same_letters (concat (f <$> seq 0 n)) (take n t)
  ∧ Forall basic_latin (concat (f <$> seq 0 n)).
Proof.
  intros Hn Hf. induction n as [|n IH]; [done|].
  destruct IH as [IH1 IH2]; [lia|].
  destruct (lookup_lt_is_Some_2 t n) as [x Hx]; [lia|].
  destruct (Hf n x Hx) as (y & Hy & Hyx & Hlatin).
  rewrite seq_S, fmap_app, concat_app. simpl. rewrite Hy, app_nil_r.
  rewrite (take_S_r t n x Hx). split.
  - unfold same_letters in *. rewrite !fmap_app, IH1. simpl. by rewrite Hyx.
  - apply Forall_app. split; [done|]. by apply Forall_singleton.
Qed.

Section MatchCaseBasicLatin.
Context {H : Host} `{!HostLaws H}.

Lemma toUpperCase_unit (c : N) :
  basic_latin c → toUpperCase [c] = [basic_upper c].
Proof. intros Hc. rewrite toUpperCase_basic; [done|]. by apply Forall_singleton. Qed.

Lemma toLowerCase_unit (c : N) :
  basic_latin c → toLowerCase [c] = [basic_lower c].
Proof. intros Hc. rewrite toLowerCase_basic; [done|]. by apply Forall_singleton. Qed.

(** What the loop pushes for a Basic Latin unit of the input is that unit
    up to case. *)
Lemma mixed_body_case (input toMatch : jsstring) (i : nat) (x : N) :
  Forall basic_latin input →
  input !! i = Some x →
  ∃ y, mixed_body input toMatch i = [y]
       ∧ basic_lower y = basic_lower x ∧ basic_latin y.
Proof.
  intros Hlatin Hx.
  assert (basic_latin x) as Hbx by by eapply Forall_lookup_1.
  assert (charAt input i = [x]) as Hsrc by (unfold charAt; by rewrite Hx).
  unfold mixed_body. rewrite Hsrc.
  case_bool_decide; [|by exists x].
  destruct (isRefUpper _).
  - exists (basic_upper x). rewrite toUpperCase_unit by done.
    split; [done|]. split; [apply basic_lower_upper | by apply basic_upper_latin].
  - exists (basic_lower x). rewrite toLowerCase_unit by done.
    split; [done|]. split; [apply basic_lower_lower | by apply basic_lower_latin].
Qed.

(** [_matchCase] gives a Basic Latin input its own letters back. *)
Lemma matchCase_letters (input toMatch : jsstring) :
  Forall basic_latin input →
  Forall basic_latin (_matchCase input toMatch)
  ∧ same_letters (_matchCase input toMatch) input.
Proof.
  intros Hlatin.
  unfold _matchCase.
  destruct (bool_decide (length input = 0) || bool_decide (length toMatch = 0));
    [by unfold same_letters|].
  destruct (isTitleCase toMatch).
  { destruct input as [|c input].
    { unfold charAt, slice. simpl. by rewrite toUpperCase_basic, toLowerCase_basic. }
    rewrite charAt_0_cons. unfold slice. simpl.
    apply Forall_cons in Hlatin as [Hc Hlatin].
    rewrite toUpperCase_unit, toLowerCase_basic by done.
    unfold same_letters. simpl. split.
    - apply Forall_cons. split; [by apply basic_upper_latin|].
      apply Forall_fmap. eapply Forall_impl; [done|]. apply basic_lower_latin.
    - rewrite basic_lower_upper. f_equal.
      rewrite <- list_fmap_compose. apply list_fmap_ext. intros ? ? _.
      apply basic_lower_lower. }
  destruct (isAllUpper toMatch).
  { rewrite toUpperCase_basic by done. unfold same_letters. split.
    - apply Forall_fmap. eapply Forall_impl; [done|]. apply basic_upper_latin.
    - rewrite <- list_fmap_compose. apply list_fmap_ext. intros ? ? _.
      apply basic_lower_upper. }
  destruct (isAllLower toMatch).
  { rewrite toLowerCase_basic by done. unfold same_letters. split.
    - apply Forall_fmap. eapply Forall_impl; [done|]. apply basic_lower_latin.
    - rewrite <- list_fmap_compose. apply list_fmap_ext. intros ? ? _.
      apply basic_lower_lower. }
  unfold mixed_case, join, push, slice. rewrite mixed_loop_seq. simpl.
  destruct (concat_pieces_case (mixed_body input toMatch) input
              (length input `min` length toMatch)) as [Hsame Hres]; [lia| |].
  { intros i x Hx. by apply mixed_body_case. }
  case_bool_decide as Hlen.
  - rewrite concat_app. simpl. rewrite app_nil_r.
    rewrite Nat.min_r in Hsame, Hres |- * by lia. split.
    + apply Forall_app. split; [done|]. by apply Forall_drop.
    + unfold same_letters in *. rewrite fmap_app, Hsame, <- fmap_app.
      by rewrite take_drop.
  - rewrite Nat.min_l in Hsame, Hres |- * by lia.
    by rewrite firstn_all in Hsame.
Qed.

(** X1: on a host that maps Basic Latin text as every host does,
    [_matchCase] changes nothing but the case of a Basic Latin input,
    whatever the pattern is: the result is Basic Latin, has the letters
    of the input in the same order, and has the length of the input. *)
Theorem matchCase_changes_case_only (input toMatch : jsstring) :
  Forall basic_latin input →
  Forall basic_latin (_matchCase input toMatch)
  ∧ same_letters (_matchCase input toMatch) input
  ∧ length (_matchCase input toMatch) = length input.
Proof.
  intros Hlatin.
  destruct (matchCase_letters input toMatch Hlatin) as [? Hsame].
  repeat split; try done. by apply same_letters_length.
Qed.

(** X2: when the input and the pattern are Basic Latin and have the same
    letters, whatever their case, [_matchCase] returns the pattern: the
    casing of the pattern is mirrored in full. *)
Theorem matchCase_same_letters (input toMatch : jsstring) :
  Forall basic_latin input → Forall basic_latin toMatch →
  same_letters input toMatch →
  _matchCase input toMatch = toMatch.
Proof.
  intros Hi Hm Hsame.
  pose proof (same_letters_length _ _ Hsame) as Hlen.
  destruct input as [|c input], toMatch as [|p toMatch]; try done.
  rewrite matchCase_nonempty by done.
  destruct (isTitleCase (p :: toMatch)) eqn:Htitle.
  { unfold isTitleCase in Htitle. apply andb_prop in Htitle as [H1 H2].
    apply bool_decide_eq_true_1 in H1, H2.
    rewrite charAt_0_cons in *. unfold slice in *. simpl in *.
    apply Forall_cons in Hi as [Hc Hi]. apply Forall_cons in Hm as [Hp Hm].
    rewrite toUpperCase_unit in * by done.
    rewrite toLowerCase_basic in * by done.
    injection Hsame as Hcp Hsame. injection H1 as H1.
    change (basic_lower <$> input = basic_lower <$> toMatch) in Hsame.
    rewrite !drop_0 in *.
    simpl. by rewrite (basic_lower_eq_upper _ _ Hcp), <- H1, Hsame, <- H2. }
  destruct (isAllUpper (p :: toMatch)) eqn:Hupper.
  { apply bool_decide_eq_true_1 in Hupper.
    rewrite toUpperCase_basic in * by done.
    by rewrite (same_letters_upper _ _ Hsame). }
  destruct (isAllLower (p :: toMatch)) eqn:Hlower.
  { apply bool_decide_eq_true_1 in Hlower.
    rewrite toLowerCase_basic in * by done.
    unfold same_letters in Hsame. by rewrite Hsame. }
  rewrite mixed_case_spec. unfold mixed_spec.
  rewrite Nat.min_r by (simpl in *; lia).
  rewrite drop_ge by (simpl in *; lia). rewrite app_nil_r.
  apply concat_pieces. intros i x Hx.
  destruct (lookup_lt_is_Some_2 (c :: input) i) as [y Hy].
  { rewrite Hlen. by eapply lookup_lt_Some. }
  assert (basic_lower y = basic_lower x) as Hyx.
  { unfold same_letters in Hsame.
    assert ((basic_lower <$> c :: input) !! i
            = (basic_lower <$> p :: toMatch) !! i) as Hl by by rewrite Hsame.
    rewrite !list_lookup_fmap, Hx, Hy in Hl. by injection Hl. }
  assert (basic_latin x) as Hbx
    by (eapply Forall_lookup_1; [exact Hm | exact Hx]).
  assert (basic_latin y) as Hby
    by (eapply Forall_lookup_1; [exact Hi | exact Hy]).
  unfold transfer, charAt. rewrite Hx, Hy.
  rewrite !toLowerCase_unit, toUpperCase_unit by done.
  rewrite Hyx, bool_decide_eq_true_2 by done.
  destruct (basic_capital [x]) eqn:Hcap.
  - by rewrite (basic_lower_eq_upper _ _ Hyx), (basic_capital_upper _ Hcap).
  - by rewrite (basic_capital_lower _ Hcap).
Qed.
(** ** C5 *)

(** C5, on the code: a Basic Latin pattern that equals its own lowercase
    form and starts with a character that has no case, such as [1st],
    passes the Titlecase test, which is checked first: [mirrorCase]
    returns the first character of the candidate in uppercase and the
    rest in lowercase, where the claim has the lowercase form of the
    candidate. *)
Theorem mirrorCase_lowercase_caseless_first (candidate rest : jsstring)
    (u : N) :
  candidate ≠ [] →
  Forall basic_latin (u :: rest) →
  basic_upper u = u →
  u :: rest = toLowerCase (u :: rest) →
  mirrorCase candidate (u :: rest)
  = toUpperCase (charAt candidate 0) ++ toLowerCase (slice candidate 1).
Proof.
  intros Hc Hlatin Hu Hlower.
  unfold mirrorCase. rewrite matchCase_nonempty by done.
  assert (isTitleCase (u :: rest) = true) as ->; [|done].
  pose proof Hlatin as [Hbu Hrest]%Forall_cons.
  unfold isTitleCase. rewrite charAt_0_cons. unfold slice. simpl.
  rewrite toUpperCase_unit, Hu by done.
  rewrite bool_decide_eq_true_2 by done. simpl.
  apply bool_decide_eq_true_2.
  rewrite toLowerCase_basic in Hlower by done.
  rewrite toLowerCase_basic by done.
  simpl in Hlower. by injection Hlower.
Qed.
End MatchCaseBasicLatin.

(** ** C2 *)

(** C2, on the code: in the mixed pattern [aÉ] the character [É] is an
    uppercase character and it faces the [é] of the candidate [aé], with
    the same lowercase form.  The loop tests the character of the
    pattern against [A] to [Z] only, so it lowercases the candidate's
    character: the result is [aé], where the claim has [aÉ]; and the
    pattern [aÉ] mirrored on itself gives [aé]. *)
Theorem mirrorCase_mixed_beyond_basic_latin :
  a_e_acute ≠ [] ∧ a_E_acute ≠ []
  ∧ isTitleCase (H:=Latin1.host) a_E_acute = false
  ∧ a_E_acute ≠ toUpperCase (Host:=Latin1.host) a_E_acute
  ∧ a_E_acute ≠ toLowerCase (Host:=Latin1.host) a_E_acute
  ∧ toLowerCase (Host:=Latin1.host) (charAt a_e_acute 1)
    = toLowerCase (Host:=Latin1.host) (charAt a_E_acute 1)
  ∧ uppercase_character (H:=Latin1.host) (charAt a_E_acute 1) = true
  ∧ isRefUpper (charAt a_E_acute 1) = false
  ∧ mirrorCase (H:=Latin1.host) a_e_acute a_E_acute = a_e_acute
  ∧ mixed_spec (H:=Latin1.host) (uppercase_character (H:=Latin1.host))
      a_e_acute a_E_acute = a_E_acute
  ∧ mirrorCase (H:=Latin1.host) a_E_acute a_E_acute = a_e_acute.
Proof. vm_compute. repeat split; discriminate. Qed.

(** * Further properties *)

(** ** [add], [remove] and the translations together *)

Section DictionaryMore.
Context {H : Host}.

Lemma compiles_true (pair : WordPair) :
  compiles pair = true ↔
  regexp_compiles (gb pair) (js "gmi") = true
  ∧ regexp_compiles (us pair) (js "gmi") = true.
Proof. unfold compiles. apply andb_true_iff. Qed.

(** A write under a key other than [__proto__] creates an own
    property. *)
Lemma sets_prototype_ne (own : gmap jsstring entry) (key : jsstring) :
  key ≠ js "__proto__" → sets_prototype own key = false.
Proof.
  intros Hne. unfold sets_prototype.
  rewrite (bool_decide_eq_false_2 (key = js "__proto__")) by done.
  by rewrite andb_false_r.
Qed.

Lemma added_own (pair : WordPair) (d : Dictionary) :
  gb pair ≠ js "__proto__" → us pair ≠ js "__proto__" →
  added pair d
  = {| enGB := <[gb pair := (us pair, {| pattern := gb pair; flags := js "gmi" |})]> (enGB d);
       enUS := <[us pair := (gb pair, {| pattern := us pair; flags := js "gmi" |})]> (enUS d);
       protoGB := protoGB d; protoUS := protoUS d |}.
Proof.
  intros Hgb Hus. unfold added, assign.
  by rewrite !sets_prototype_ne.
Qed.

(** X4: after an [add] that returns, each word of the pair translates to
    the other with [matchCase] false, as it was given. *)
Theorem add_translate_round_trip (pair : WordPair) (d d' r : Dictionary) :
  add pair d = (Return r, d') →
  gbToUs (Word (gb pair)) (Some false) d' = (Return (Word (us pair)), d')
  ∧ usToGb (Word (us pair)) (Some false) d' = (Return (Word (gb pair)), d').
Proof.
  intros Hadd. apply add_returns_inv in Hadd as [-> ->]. split.
  - erewrite gbToUs_found; [done|]. apply added_get_gb.
  - erewrite usToGb_found; [done|]. apply added_get_us.
Qed.

(** X5: [add] of a pair of words that are not empty and not [__proto__],
    neither of them a key of its index yet, followed by [remove] of the
    British word under a locale the host accepts, gives back the state
    [add] started from. *)
Theorem add_remove_gb_round_trip (pair : WordPair) (lowered : jsstring)
    (l : locales) (d : Dictionary) :
  compiles pair = true →
  gb pair ≠ [] → us pair ≠ [] →
  gb pair ≠ js "__proto__" → us pair ≠ js "__proto__" →
  toLocaleLowerCase (gb pair) l = Some lowered → lowered ≠ [] →
  enGB d !! gb pair = None →
  enUS d !! us pair = None →
  (add pair ;; remove (gb pair) l) d = (Return d, d).
Proof.
  intros [Hgb Hus]%compiles_true Hg Hu Hgp Hup Hl Hlowered HnoneGB HnoneUS.
  unfold mbind, M_bind. rewrite add_returns by done.
  rewrite (remove_run _ lowered) by done.
  unfold remove_keys. rewrite added_get_gb. cbn [falsy negb element0].
  rewrite delete_keys_pair by done.
  rewrite added_own by done. unfold remove_pair. simpl.
  rewrite !delete_insert_id by done. by rewrite dictionary_eta.
Qed.

(** X6: the same with [remove] of the American word, when the GB index
    has no property under that word, own or inherited: either word of
    the pair removes both entries. *)
Theorem add_remove_us_round_trip (pair : WordPair) (lowered : jsstring)
    (l : locales) (d : Dictionary) :
  compiles pair = true →
  gb pair ≠ [] → us pair ≠ [] →
  gb pair ≠ js "__proto__" → us pair ≠ js "__proto__" →
  toLocaleLowerCase (us pair) l = Some lowered → lowered ≠ [] →
  enGB d !! gb pair = None →
  enUS d !! us pair = None →
  us pair ≠ gb pair →
  read GB_TO_US d (us pair) = undefined →
  (add pair ;; remove (us pair) l) d = (Return d, d).
Proof.
  intros [Hgb Hus]%compiles_true Hg Hu Hgp Hup Hl Hlowered HnoneGB HnoneUS
    Hne Hfree.
  unfold mbind, M_bind. rewrite add_returns by done.
  rewrite (remove_run _ lowered) by done.
  unfold remove_keys.
  assert (get_property (enGB (added pair d)) (protoGB (added pair d)) (us pair)
          = undefined) as ->.
  { unfold added. simpl. rewrite get_assign_ne_own; [done|done|].
    by apply sets_prototype_ne. }
  rewrite added_get_us. cbn [falsy negb element0].
  rewrite delete_keys_pair by done.
  rewrite added_own by done. unfold remove_pair. simpl.
  rewrite !delete_insert_id by done. by rewrite dictionary_eta.
Qed.


(** X8: under a locale the host accepts, [remove] of a word changes
    nothing when neither index has a property, own or inherited, under
    the word or under its locale-lowercased form. *)
Theorem remove_unknown_word (word lowered : jsstring) (l : locales)
    (d : Dictionary) :
  toLocaleLowerCase word l = Some lowered →
  read GB_TO_US d word = undefined → read US_TO_GB d word = undefined →
  read GB_TO_US d lowered = undefined → read US_TO_GB d lowered = undefined →
  remove word l d = (Return d, d).
Proof.
  unfold read. simpl. intros Hl H1 H2 H3 H4.
  destruct (decide (lowered = [])) as [->|Hne]; [by apply remove_empty|].
  rewrite (remove_run _ lowered) by done.
  unfold remove_keys. rewrite H1, H2, H3, H4. simpl.
  unfold delete_keys. simpl. by rewrite dictionary_eta.
Qed.

(** X9: [add] is not atomic.  When the host compiles the British word
    and refuses the American one, [add] throws after it has written the
    GB index: the British word translates to the American one from then
    on, and the US index is as it was. *)
Theorem add_partial_write (pair : WordPair) (d : Dictionary) :
  regexp_compiles (gb pair) (js "gmi") = true →
  regexp_compiles (us pair) (js "gmi") = false →
  ∃ d', add pair d = (Throw SyntaxError, d')
        ∧ gbToUs (Word (gb pair)) (Some false) d' = (Return (Word (us pair)), d')
        ∧ enUS d' = enUS d.
Proof.
  intros Hgb Hus. eexists. split; [by apply add_throws_us|].
  split; [|done].
  erewrite gbToUs_found; [done|]. simpl. apply added_get_gb.
Qed.

(** X10: [add] of the same pair twice in a row ends as one [add] of it
    does, whether the host compiles the words or not. *)
Theorem add_twice (pair : WordPair) (d : Dictionary) :
  (add pair ;; add pair) d = add pair d.
Proof.
  unfold mbind at 1, M_bind at 1.
  destruct (regexp_compiles (gb pair) (js "gmi")) eqn:Hgb.
  - destruct (regexp_compiles (us pair) (js "gmi")) eqn:Hus.
    + rewrite !add_returns by done.
      assert (added pair (added pair d) = added pair d) as ->; [|done].
      unfold added. simpl. by rewrite !assign_assign.
    + by rewrite add_throws_us.
  - unfold add, new_RegExp. run. by rewrite Hgb.
Qed.

(** X15: the stale reverse entry outlives [remove].  When the US index
    maps [u1] to [g], overriding with [add({gb: g, us: u2})] and then
    [remove(g)], under a locale the host accepts, leaves no entry for
    [g] in the GB index, and [u1] still translates to [g]. *)
Theorem override_then_remove_keeps_reverse (d : Dictionary)
    (g u1 u2 lowered : jsstring) (regex : RegExp) (l : locales) :
  compiles {| gb := g; us := u2 |} = true →
  g ≠ [] → u2 ≠ [] →
  toLocaleLowerCase g l = Some lowered → lowered ≠ [] →
  u1 ≠ u2 →
  enUS d !! u1 = Some (g, regex) →
  ∃ d', (add {| gb := g; us := u2 |} ;; remove g l) d = (Return d', d')
        ∧ enGB d' !! g = None
        ∧ usToGb (Word u1) (Some false) d' = (Return (Word g), d').
Proof.
  intros [Hgb Hus]%compiles_true Hg Hu2 Hl Hlowered Hne Hu1.
  eexists. split.
  - unfold mbind, M_bind. rewrite add_returns by done.
    rewrite (remove_run _ lowered) by done.
    unfold remove_keys.
    rewrite (added_get_gb {| gb := g; us := u2 |} d).
    cbn [falsy negb element0]. by rewrite delete_keys_pair.
  - split; [simpl; by rewrite lookup_delete_eq|].
    erewrite usToGb_found; [done|]. apply get_property_own. simpl.
    rewrite lookup_delete_ne by done. by rewrite assign_own_ne.
Qed.
End DictionaryMore.

(** ** The constructor *)

Section ConstructorFacts.
Context {H : Host}.

Lemma forEach_app {A B} (f : A → M B) (l1 l2 : list A) (d : Dictionary) :
  forEach f (l1 ++ l2) d = (forEach f l1 ;; forEach f l2) d.
Proof.
  revert d. induction l1 as [|x l1 IH]; intros d; [done|].
  simpl. unfold mbind, M_bind in *.
  destruct (f x d) as [[b|e] d1]; [|done]. apply IH.
Qed.

Lemma forEach_data (data : list (jsstring * jsstring)) (d : Dictionary) :
  forEach (λ '(key, value), add {| gb := key; us := value |}) data d
  = forEach add ((λ '(key, value), {| gb := key; us := value |}) <$> data) d.
Proof.
  revert d. induction data as [|[key value] data IH]; intros d; [done|].
  simpl. unfold mbind, M_bind.
  destruct (add _ d) as [[b|e] d1]; [|done]. apply IH.
Qed.

(** The constructor runs [add] on its pairs in order, from no entry. *)
Lemma constructor_forEach (data : list (jsstring * jsstring))
    (additions : list WordPair) :
  constructor data additions
  = (forEach add (constructor_pairs data additions) ;; this) empty_dictionary.
Proof.
  unfold constructor, constructor_pairs, empty_dictionary.
  unfold mbind, M_bind. rewrite forEach_app. unfold mbind, M_bind.
  rewrite forEach_data.
  by destruct (forEach add _ _) as [[b|e] d1].
Qed.

(** While the host compiles the words, [forEach(add)] returns in the
    state the pairs lead to one after the other. *)
Lemma forEach_add_returns (pairs : list WordPair) (d : Dictionary) :
  forallb compiles pairs = true →
  forEach add pairs d = (Return (), foldl (λ d pair, added pair d) d pairs).
Proof.
  revert d. induction pairs as [|pair pairs IH]; intros d Hall; [done|].
  simpl in Hall. apply andb_prop in Hall as [[Hgb Hus]%compiles_true Hall].
  simpl. unfold mbind, M_bind. rewrite add_returns by done. by apply IH.
Qed.

(** The first pair with a word the host refuses makes [forEach(add)]
    throw. *)
Lemma forEach_add_throws (pairs : list WordPair) (d : Dictionary) :
  forallb compiles pairs = false →
  ∃ d', forEach add pairs d = (Throw SyntaxError, d').
Proof.
  revert d. induction pairs as [|pair pairs IH]; intros d Hall; [done|].
  simpl in Hall. simpl. unfold mbind, M_bind.
  destruct (compiles pair) eqn:Hpair.
  - apply compiles_true in Hpair as [Hgb Hus].
    rewrite add_returns by done. by apply IH.
  - unfold compiles in Hpair.
    destruct (regexp_compiles (gb pair) (js "gmi")) eqn:Hgb.
    + rewrite add_throws_us by done. by eexists.
    + exists d. unfold add, new_RegExp. run. by rewrite Hgb.
Qed.

(** Later pairs with other British words leave alone a British word that
    reads as an array; the same for American words. *)
Lemma foldl_added_gb (after : list WordPair) (key : jsstring)
    (array : entry) (d : Dictionary) :
  key ∉ gb <$> after →
  get_property (enGB d) (protoGB d) key = tuple array →
  let d' := foldl (λ d pair, added pair d) d after in
  get_property (enGB d') (protoGB d') key = tuple array.
Proof.
  revert d. induction after as [|pair after IH]; intros d Hkey Hget; [done|].
  simpl in *. apply not_elem_of_cons in Hkey as [Hne Hkey].
  apply IH; [done|]. simpl. by apply get_assign_ne_tuple.
Qed.

Lemma foldl_added_us (after : list WordPair) (key : jsstring)
    (array : entry) (d : Dictionary) :
  key ∉ us <$> after →
  get_property (enUS d) (protoUS d) key = tuple array →
  let d' := foldl (λ d pair, added pair d) d after in
  get_property (enUS d') (protoUS d') key = tuple array.
Proof.
  revert d. induction after as [|pair after IH]; intros d Hkey Hget; [done|].
  simpl in *. apply not_elem_of_cons in Hkey as [Hne Hkey].
  apply IH; [done|]. simpl. by apply get_assign_ne_tuple.
Qed.

(** X11: the last write wins in the constructor.  When the host compiles
    all the words of the data set and of the additions, the constructor
    returns an instance in which a British word translates, with
    [matchCase] false, to the American word of the last pair that has
    it, additions counting after the data set; and an American word to
    the British word of the last pair that has it. *)
Theorem constructor_last_write_wins (data : list (jsstring * jsstring))
    (additions before after : list WordPair) (pair : WordPair) :
  forallb compiles (constructor_pairs data additions) = true →
  constructor_pairs data additions = before ++ pair :: after →
  ∃ d, constructor data additions = (Return d, d)
       ∧ (gb pair ∉ gb <$> after →
          gbToUs (Word (gb pair)) (Some false) d = (Return (Word (us pair)), d))
       ∧ (us pair ∉ us <$> after →
          usToGb (Word (us pair)) (Some false) d = (Return (Word (gb pair)), d)).
Proof.
  intros Hall Hpairs. rewrite constructor_forEach.
  unfold mbind, M_bind. rewrite forEach_add_returns by done.
  eexists. split; [reflexivity|].
  rewrite Hpairs, foldl_app. cbn [foldl].
  split; intros Hlast.
  - erewrite gbToUs_found; [done|].
    apply foldl_added_gb; [done|]. apply added_get_gb.
  - erewrite usToGb_found; [done|].
    apply foldl_added_us; [done|]. apply added_get_us.
Qed.

(** X12: when the host refuses a word of the data set or of the
    additions, the constructor throws a [SyntaxError] and there is no
    instance. *)
Theorem constructor_throws (data : list (jsstring * jsstring))
    (additions : list WordPair) :
  forallb compiles (constructor_pairs data additions) = false →
  ∃ d, constructor data additions = (Throw SyntaxError, d).
Proof.
  intros Hall. rewrite constructor_forEach. unfold mbind, M_bind.
  destruct (forEach_add_throws _ empty_dictionary Hall) as [d' ->].
  by exists d'.
Qed.
End ConstructorFacts.

(** ** [entries], lists of words and the [matchCase] flag *)

Lemma collect_fmap_Return {A} (out : list A) :
  collect (Return <$> out) = Return out.
Proof.
  induction out as [|a out IH]; [done|].
  rewrite fmap_cons. cbn [collect]. by rewrite IH.
Qed.

Lemma collect_app_Throw {A} (before : list A) (e : Error)
    (after : list (completion A)) :
  collect ((Return <$> before) ++ Throw e :: after) = Throw e.
Proof.
  induction before as [|a before IH]; [done|].
  rewrite fmap_cons, <- app_comm_cons. cbn [collect]. by rewrite IH.
Qed.

Lemma first_code_point_basic (s : jsstring) :
  Forall basic_latin s → Forall basic_latin (first_code_point s).
Proof.
  intros Hs. destruct s as [|hi [|lo s]]; [done|done|].
  apply Forall_cons in Hs as [Hhi _]. unfold first_code_point.
  unfold basic_latin in Hhi.
  destruct (N.leb_spec 55296 hi); [lia|]. simpl. by apply Forall_singleton.
Qed.

Section EntriesFacts.
Context {H : Host}.

(** X13: [entries()] returns, leaves the state alone, and yields one pair
    for each key of the GB index and no other: the keys of the pairs are
    distinct, there are as many pairs as keys, a pair is yielded exactly
    when the GB index has its American word under its British word, and
    the British word of a yielded pair translates to its American word
    with [matchCase] false. *)
Theorem entries_are_the_gb_index (d : Dictionary) :
  ∃ pairs,
    entries d = (Return pairs, d)
    ∧ NoDup pairs.*1
    ∧ length pairs = size (enGB d)
    ∧ (∀ gb us, (gb, us) ∈ pairs ↔ ∃ regex, enGB d !! gb = Some (us, regex))
    ∧ (∀ gb us, (gb, us) ∈ pairs →
         gbToUs (Word gb) (Some false) d = (Return (Word us), d)).
Proof.
  eexists. split; [reflexivity|].
  assert (∀ gb us,
    (gb, us) ∈ (λ '(gb, (us, _)), (gb, us)) <$> map_to_list (enGB d)
    ↔ ∃ regex : RegExp, enGB d !! gb = Some (us, regex)) as Hmem.
  { intros gb us. rewrite list_elem_of_fmap. split.
    - intros ([key [target regex]] & [= -> ->] & Hin).
      exists regex. by apply elem_of_map_to_list.
    - intros [regex Hregex]. exists (gb, (us, regex)).
      split; [done|]. by apply elem_of_map_to_list. }
  split; [|split; [|split; [done|]]].
  - rewrite <- list_fmap_compose.
    rewrite (list_fmap_ext _ fst (map_to_list (enGB d)))
      by (by intros ? [key [target regex]] _).
    apply NoDup_fst_map_to_list.
  - rewrite length_fmap. apply length_map_to_list.
  - intros gb us [regex Hregex]%Hmem.
    erewrite gbToUs_found; [done|]. by apply get_property_own.
Qed.

(** X14: a list of words is translated word by word, in order and in the
    same state.  When the call on each single word returns, the call on
    the list returns a list of the same length whose element at each
    index is what the call on the word at that index returns; when the
    call on a word throws and the calls on the words before it return,
    the call on the list throws the same error. *)
Theorem translate_list_elementwise (direction : Direction)
    (words : list jsstring) (matchCase : option bool) (d : Dictionary) :
  ((∀ word, word ∈ words →
      ∃ r, translate direction (Word word) matchCase d = (Return (Word r), d)) →
   ∃ out,
     translate direction (WordList words) matchCase d
     = (Return (WordList out), d)
     ∧ length out = length words
     ∧ (∀ i word, words !! i = Some word →
          ∃ r, out !! i = Some r
               ∧ translate direction (Word word) matchCase d
                 = (Return (Word r), d)))
  ∧ (∀ before word after e,
       words = before ++ word :: after →
       (∀ w, w ∈ before →
          ∃ r, translate direction (Word w) matchCase d = (Return (Word r), d)) →
       translate direction (Word word) matchCase d = (Throw e, d) →
       translate direction (WordList words) matchCase d = (Throw e, d)).
Proof.
  set (g := λ word, translate_in (index direction d) (index_proto direction d)
                      word (default true matchCase)).
  assert (∀ word r,
    translate direction (Word word) matchCase d = (Return (Word r), d)
    ↔ g word = Return r) as Hret.
  { intros word r. rewrite translate_word. fold (g word).
    destruct (g word); simpl; split; intros [=]; by subst. }
  assert (∀ l : list jsstring,
    (∀ w, w ∈ l →
       ∃ r, translate direction (Word w) matchCase d = (Return (Word r), d)) →
    g <$> l
    = Return <$> ((λ w, match g w with Return r => r | Throw _ => w end) <$> l))
    as Hall.
  { intros l Hl. rewrite <- list_fmap_compose. apply list_fmap_ext.
    intros i w Hw. simpl.
    destruct (Hl w) as [r Hr]; [by eapply list_elem_of_lookup_2|].
    apply Hret in Hr. by rewrite Hr. }
  split.
  - intros Hwords. eexists. rewrite translate_words. fold g.
    rewrite (Hall words Hwords), collect_fmap_Return. simpl.
    split; [reflexivity|]. split; [apply length_fmap|].
    intros i word Hword.
    destruct (Hwords word) as [r Hr]; [by eapply list_elem_of_lookup_2|].
    exists r. split; [|done].
    rewrite list_lookup_fmap, Hword. simpl.
    apply Hret in Hr. by rewrite Hr.
  - intros before word after e -> Hbefore Hword.
    rewrite translate_words. fold g.
    rewrite fmap_app, fmap_cons, (Hall before Hbefore).
    rewrite translate_word in Hword. fold (g word) in Hword.
    destruct (g word) as [r|e']; [done|]. injection Hword as ->.
    by rewrite collect_app_Throw.
Qed.

(** A read yields a string only from the first element of the array in
    the place of the prototype. *)
Lemma get_property_str_inv (own : gmap jsstring entry) (proto : option entry)
    (key s : jsstring) :
  get_property own proto key = str s → ∃ regex, proto = Some (s, regex).
Proof.
  unfold get_property, object_prototype_get.
  destruct (own !! key); [done|].
  destruct proto as [[counterpart regex]|];
    repeat case_bool_decide;
    try (destruct has_proto_accessor; simpl);
    try done.
  all: intros [= ->]; by exists regex.
Qed.

(** X16: the [matchCase] flag changes the case of the result and nothing
    else.  When the counterparts stored in the index of the direction,
    and in the array in the place of its prototype if there is one, are
    Basic Latin, and the translation of a word with [matchCase] false
    returns, then the translation with [matchCase] true returns too, and
    the two results have the same letters and the same length. *)
Theorem matchCase_flag_changes_case_only `{!HostLaws H}
    (direction : Direction) (word r2 : jsstring) (d : Dictionary) :
  (∀ key target regex,
     index direction d !! key = Some (target, regex) →
     Forall basic_latin target) →
  (∀ target regex,
     index_proto direction d = Some (target, regex) →
     Forall basic_latin target) →
  translate direction (Word word) (Some false) d = (Return (Word r2), d) →
  ∃ r1,
    translate direction (Word word) (Some true) d = (Return (Word r1), d)
    ∧ same_letters r1 r2 ∧ length r1 = length r2.
Proof.
  intros Hown Hproto. rewrite !translate_word. unfold translate_in. simpl.
  set (entry := if nullish _ then _ else _).
  assert (∀ target regex, entry = tuple (target, regex) →
          Forall basic_latin target) as Htuple.
  { intros target regex. unfold entry.
    destruct (nullish _);
      intros [Hget|(_ & _ & _ & Hget)]%get_property_tuple_inv;
      by eauto. }
  assert (∀ s, entry = str s → Forall basic_latin s) as Hstr.
  { intros s. unfold entry.
    destruct (nullish _); intros [regex Hget]%get_property_str_inv; by eauto. }
  destruct entry as [|[target regex]|s|regex|n|] eqn:Hentry;
    [| |destruct s as [|c s]| |destruct n|];
    cbn [translate_entry completion_map];
    try (intros [=]; fail).
  - intros [= <-]. by exists word.
  - intros [= <-]. eexists. split; [reflexivity|].
    destruct (matchCase_letters target word) as [_ Hsame];
      [by eapply Htuple|].
    split; [done|]. by apply same_letters_length.
  - intros [= <-]. by exists word.
  - intros [= <-]. eexists. split; [reflexivity|].
    destruct (matchCase_letters (first_code_point (c :: s)) word)
      as [_ Hsame];
      [apply (first_code_point_basic (c :: s)); by apply Hstr|].
    split; [done|]. by apply same_letters_length.
  - intros [= <-]. by exists word.
Qed.
End EntriesFacts.

(** ** The tests of [mod.test.ts], run on the model *)

Section Tests.
#[local] Existing Instance Latin1.host.

Example test_constructor :
  ∃ d, constructor test_data [] = (Return d, d).
Proof. eexists. vm_compute. reflexivity. Qed.

Example test_gbToUs_mirrors :
  fst ((d ← (λ _, constructor test_data []) : M Dictionary;
   r1 ← gbToUs (Word (js "colour")) (Some true);
   r2 ← gbToUs (Word (js "COLOUR")) (Some true);
   r3 ← gbToUs (Word (js "Colour")) (Some true);
   r4 ← gbToUs (Word (js "coLour")) (Some true);
   r5 ← gbToUs (Word (js "AeRopLaNe")) (Some true);
   r6 ← gbToUs (Word (js "CENTRE")) (Some false);
   r7 ← gbToUs (WordList [js "colour"; js "centre"; js "unknownword"]) (Some true);
   r8 ← usToGb (Word (js "ColoR")) (Some true);
   mret [r1; r2; r3; r4; r5; r6; r7; r8]) empty_dictionary)
  = Return [ Word (js "color"); Word (js "COLOR"); Word (js "Color");
             Word (js "coLor"); Word (js "AiRplane"); Word (js "center");
             WordList [js "color"; js "center"; js "unknownword"];
             Word (js "Colour") ].
Proof. vm_compute. reflexivity. Qed.

Example test_add_remove :
  fst ((d ← (λ _, constructor test_data []) : M Dictionary;
   add {| gb := js "mouldy"; us := js "moldy" |} ;;
   r1 ← gbToUs (Word (js "mouldy")) (Some true);
   remove (js "MOULDY") None ;;
   r2 ← gbToUs (Word (js "mouldy")) (Some true);
   r3 ← usToGb (Word (js "moldy")) (Some true);
   add {| gb := js "moustache"; us := js "mustache" |} ;;
   remove (js "Mustache") None ;;
   r4 ← gbToUs (Word (js "moustache")) (Some true);
   r5 ← usToGb (Word (js "mustache")) (Some true);
   remove (js "nonexistent") None ;;
   r6 ← gbToUs (Word (js "colour")) (Some false);
   mret [r1; r2; r3; r4; r5; r6]) empty_dictionary)
  = Return [ Word (js "moldy"); Word (js "mouldy"); Word (js "moldy");
             Word (js "moustache"); Word (js "mustache"); Word (js "color") ].
Proof. vm_compute. reflexivity. Qed.

Example test_titlecase_keys :
  fst ((d ← (λ _, constructor test_data []) : M Dictionary;
   add {| gb := js "Gaol"; us := js "Jail" |} ;;
   r1 ← gbToUs (Word (js "gaol")) (Some true);
   r2 ← gbToUs (Word (js "Gaol")) (Some true);
   remove (js "gaol") None ;;
   r3 ← gbToUs (Word (js "Gaol")) (Some true);
   remove (js "Jail") None ;;
   r4 ← gbToUs (Word (js "Gaol")) (Some true);
   mret [r1; r2; r3; r4]) empty_dictionary)
  = Return [ Word (js "gaol"); Word (js "Jail"); Word (js "Jail");
             Word (js "Gaol") ].
Proof. vm_compute. reflexivity. Qed.

Example test_turkish_locale :
  fst ((d ← (λ _, constructor test_data []) : M Dictionary;
   remove (js "FIBRE") (Some (js "tr")) ;;
   r1 ← gbToUs (Word (js "fibre")) (Some false);
   remove (js "FIBRE") None ;;
   r2 ← gbToUs (Word (js "fibre")) (Some false);
   mret [r1; r2]) empty_dictionary)
  = Return [ Word (js "fiber"); Word (js "fibre") ].
Proof. vm_compute. reflexivity. Qed.

Example test_override_keeps_reverse :
  fst ((d ← (λ _, constructor test_data [ {| gb := js "colour"; us := js "hue" |} ])
         : M Dictionary;
   r1 ← gbToUs (Word (js "colour")) (Some false);
   r2 ← usToGb (Word (js "hue")) (Some false);
   r3 ← usToGb (Word (js "color")) (Some false);
   mret [r1; r2; r3]) empty_dictionary)
  = Return [ Word (js "hue"); Word (js "colour"); Word (js "colour") ].
Proof. vm_compute. reflexivity. Qed.
End Tests.

(** ** Inherited properties, at concrete inputs on the Latin-1 host *)

(** [gbToUs("constructor")], [gbToUs("Constructor")] and [gbToUs] of a
    list that holds [toString] throw a [TypeError]. *)
Example translate_inherited_names :
  gbToUs (H:=Latin1.host) (Word (js "constructor")) None colour_dictionary
    = (Throw TypeError, colour_dictionary)
  ∧ gbToUs (H:=Latin1.host) (Word (js "Constructor")) (Some false)
      colour_dictionary = (Throw TypeError, colour_dictionary)
  ∧ usToGb (H:=Latin1.host) (WordList [js "color"; js "toString"]) None
      colour_dictionary = (Throw TypeError, colour_dictionary).
Proof. by vm_compute. Qed.

(** After [add({gb: "builder", us: "constructor"})], [remove("constructor")]
    matches the function that the GB index inherits under [constructor],
    finds no counterpart in it and deletes nothing. *)
Example remove_inherited_name :
  enUS builder_dictionary !! js "constructor"
    = Some (js "builder", {| pattern := js "constructor"; flags := js "gmi" |})
  ∧ remove (H:=Latin1.host) (js "constructor") None builder_dictionary
    = (Return builder_dictionary, builder_dictionary).
Proof. by vm_compute. Qed.

(** [add({gb: "__proto__", us: "x"})] creates no own key in the GB index
    and makes the array its prototype: [gbToUs("__proto__", false)] is
    [x], and [remove("0")] reads the first element of the array, takes
    its first unit for the American key and deletes the US entry [x]. *)
Example proto_write :
  enGB proto_dictionary = ∅
  ∧ protoGB proto_dictionary
    = Some (js "x", {| pattern := js "__proto__"; flags := js "gmi" |})
  ∧ gbToUs (H:=Latin1.host) (Word (js "__proto__")) (Some false) proto_dictionary
    = (Return (Word (js "x")), proto_dictionary)
  ∧ enUS proto_dictionary !! js "x"
    = Some (js "__proto__", {| pattern := js "x"; flags := js "gmi" |})
  ∧ enUS (remove (H:=Latin1.host) (js "0") None proto_dictionary).2 !! js "x"
    = None.
Proof. by vm_compute. Qed.

(** A malformed locale tag: [remove("colour", "en_US")] throws a
    [RangeError]. *)
Example remove_malformed_locale :
  remove (H:=Latin1.host) (js "colour") (Some (js "en_US")) colour_dictionary
  = (Throw RangeError, colour_dictionary).
Proof. by vm_compute. Qed.

(** ** The theorems at concrete inputs, on the Latin-1 host *)

(** [mirrorCase("color", "A")] is [Color], not [COLOR]. *)
Example mirrorCase_color_A :
  mirrorCase (H:=Latin1.host) (js "color") (js "A") = js "Color"
  ∧ toUpperCase (Host:=Latin1.host) (js "color") = js "COLOR".
Proof. by vm_compute. Qed.

(** The cases of the tests of [mod.test.ts] that go through the mixed
    rule. *)
Example mirrorCase_tests :
  mirrorCase (H:=Latin1.host) (js "color") (js "coLour") = js "coLor"
  ∧ mirrorCase (H:=Latin1.host) (js "color") (js "coloUr") = js "color"
  ∧ mirrorCase (H:=Latin1.host) (js "airplane") (js "AeRopLaNe") = js "AiRplane"
  ∧ mirrorCase (H:=Latin1.host) (js "grayish") (js "GrEyIsH") = js "GrayIsH"
  ∧ mirrorCase (H:=Latin1.host) (js "colour") (js "coLor") = js "coLour"
  ∧ mirrorCase (H:=Latin1.host) (js "colour") (js "ColoR") = js "Colour".
Proof. by vm_compute. Qed.

(** C1 at [constructor] on no entry, with [matchCase] left out. *)
Lemma translate_throws_on_inherited_witness :
  translate (H:=Latin1.host) GB_TO_US (Word (js "constructor")) None
    empty_dictionary
  = (Throw TypeError, empty_dictionary).
Proof.
  apply (translate_throws_on_inherited (H:=Latin1.host) GB_TO_US
           (js "constructor") None empty_dictionary).
  left. vm_compute. reflexivity.
Defined.

(** C5 at [color] on the pattern [1st]: the result is [Color], and the
    lowercase form of [color] is [color]. *)
Lemma mirrorCase_lowercase_caseless_first_witness :
  mirrorCase (H:=Latin1.host) (js "color") (js "1st")
  = toUpperCase (Host:=Latin1.host) (charAt (js "color") 0)
    ++ toLowerCase (Host:=Latin1.host) (slice (js "color") 1)
  ∧ toUpperCase (Host:=Latin1.host) (charAt (js "color") 0)
    ++ toLowerCase (Host:=Latin1.host) (slice (js "color") 1) = js "Color"
  ∧ toLowerCase (Host:=Latin1.host) (js "color") = js "color".
Proof.
  split; [|by vm_compute].
  apply (mirrorCase_lowercase_caseless_first (H:=Latin1.host) (js "color")
           (js "st") 49%N).
  - vm_compute. discriminate.
  - apply basic_latinb_Forall. vm_compute. reflexivity.
  - vm_compute. reflexivity.
  - vm_compute. reflexivity.
Defined.

(** C8 at [color] and [A]. *)
Lemma mirrorCase_single_uppercase_witness :
  mirrorCase (H:=Latin1.host) (js "color") [65%N]
  = toUpperCase (Host:=Latin1.host) (charAt (js "color") 0)
    ++ toLowerCase (Host:=Latin1.host) (slice (js "color") 1).
Proof.
  apply (mirrorCase_single_uppercase (H:=Latin1.host) (js "color") 65%N);
    vm_compute; (reflexivity || discriminate).
Defined.

(** [add] returns the dictionaries of the examples. *)
Lemma add_gaol :
  add (H:=Latin1.host) {| gb := js "Gaol"; us := js "Jail" |} empty_dictionary
  = (Return gaol_dictionary, gaol_dictionary).
Proof. by apply add_returns. Qed.

Lemma add_mouldy :
  add (H:=Latin1.host) mouldy_pair empty_dictionary
  = (Return mouldy_dictionary, mouldy_dictionary).
Proof. by apply add_returns. Qed.

Lemma add_empty_key :
  add (H:=Latin1.host) {| gb := []; us := js "x" |} empty_dictionary
  = (Return empty_key_dictionary, empty_key_dictionary).
Proof. by apply add_returns. Qed.

(** C3: the amended statement at [remove("MOULDY")] after
    [add({gb: "mouldy", us: "moldy"})]: the third step matches and both
    indices are left with no entry. *)
Lemma remove_resolution_witness :
  remove (H:=Latin1.host) (js "MOULDY") None mouldy_dictionary
  = (Return (remove_pair (js "mouldy") (js "moldy") mouldy_dictionary),
     remove_pair (js "mouldy") (js "moldy") mouldy_dictionary)
  ∧ remove_pair (js "mouldy") (js "moldy") mouldy_dictionary = empty_dictionary.
Proof.
  split; [|vm_compute; reflexivity].
  assert (js "MOULDY" ≠ []) as Hword by (vm_compute; discriminate).
  assert (toLocaleLowerCase (Host:=Latin1.host) (js "MOULDY") None
          = Some (js "mouldy")) as Hl by (vm_compute; reflexivity).
  assert (js "mouldy" ≠ []) as Hlowered by (vm_compute; discriminate).
  destruct (remove_resolution (H:=Latin1.host) (js "MOULDY") (js "mouldy") None
              mouldy_dictionary Hword Hl Hlowered)
    as (_ & _ & Hthird & _).
  apply (Hthird (js "moldy") {| pattern := js "mouldy"; flags := js "gmi" |});
    vm_compute; (reflexivity || discriminate).
Defined.

(** C3, against the claim as stated: with an entry under the empty key of
    the GB index ([add({gb: "", us: "x"})]), the first step of the order
    matches the empty word and has both entries deleted; [remove("")]
    stops at its guard on the empty lowercased word and deletes nothing. *)
Lemma remove_empty_word_counterexample :
  enGB empty_key_dictionary !! []
    = Some (js "x", {| pattern := []; flags := js "gmi" |})
  ∧ toLocaleLowerCase (Host:=Latin1.host) [] None = Some []
  ∧ remove (H:=Latin1.host) [] None empty_key_dictionary
    = (Return empty_key_dictionary, empty_key_dictionary)
  ∧ remove_spec [] [] empty_key_dictionary = empty_dictionary
  ∧ (remove (H:=Latin1.host) [] None empty_key_dictionary).2
    ≠ remove_spec [] [] empty_key_dictionary.
Proof. vm_compute. repeat split; discriminate. Qed.

(** An entry whose counterpart is the empty string: [remove("x")] deletes
    the GB entry and leaves the US entry under the empty key, the empty
    [usKey] being falsy. *)
Lemma remove_empty_counterpart :
  enGB (remove (H:=Latin1.host) (js "x") None empty_counterpart_dictionary).2
    = ∅
  ∧ enUS (remove (H:=Latin1.host) (js "x") None empty_counterpart_dictionary).2
    = enUS empty_counterpart_dictionary
  ∧ enUS empty_counterpart_dictionary !! []
    = Some (js "x", {| pattern := []; flags := js "gmi" |}).
Proof. vm_compute. by repeat split. Qed.

(** C4: [add({gb: "(", us: "x"})] throws. *)
Lemma add_throws_gb_witness :
  add (H:=Latin1.host) {| gb := js "("; us := js "x" |} empty_dictionary
  = (Throw SyntaxError, empty_dictionary).
Proof.
  apply (add_throws_gb (H:=Latin1.host) {| gb := js "("; us := js "x" |}).
  vm_compute. reflexivity.
Defined.

(** C6 after [add({gb: "Gaol", us: "Jail"})], with [matchCase] left
    out. *)
Lemma exact_key_precedes_lowercase_witness :
  gbToUs (H:=Latin1.host) (Word (js "gaol")) None gaol_dictionary
    = (Return (Word (js "gaol")), gaol_dictionary)
  ∧ gbToUs (H:=Latin1.host) (Word (js "Gaol")) None gaol_dictionary
    = (Return (Word (js "Jail")), gaol_dictionary).
Proof.
  apply (exact_key_precedes_lowercase (H:=Latin1.host) gaol_dictionary
           {| pattern := js "Gaol"; flags := js "gmi" |} None);
    vm_compute; reflexivity.
Defined.

(** C7 at [colour]/[color] overridden by [colour]/[hue]. *)
Lemma add_override_keeps_reverse_witness :
  gbToUs (H:=Latin1.host) (Word (js "colour")) (Some false) hue_dictionary
    = (Return (Word (js "hue")), hue_dictionary)
  ∧ usToGb (H:=Latin1.host) (Word (js "color")) (Some false) hue_dictionary
    = (Return (Word (js "colour")), hue_dictionary)
  ∧ (∀ key, key ≠ js "colour" →
       enGB hue_dictionary !! key = enGB colour_dictionary !! key)
  ∧ (∀ key, key ≠ js "hue" →
       enUS hue_dictionary !! key = enUS colour_dictionary !! key).
Proof.
  apply (add_override_keeps_reverse (H:=Latin1.host)
           colour_dictionary hue_dictionary hue_dictionary
           (js "colour") (js "color") (js "hue")
           {| pattern := js "colour"; flags := js "gmi" |}
           {| pattern := js "color"; flags := js "gmi" |}).
  - vm_compute. reflexivity.
  - vm_compute. reflexivity.
  - vm_compute. discriminate.
  - vm_compute. reflexivity.
Defined.

(** C9: the amended statement on no entry and on an entry under the empty
    key. *)
Lemma translate_empty_word_witness :
  translate (H:=Latin1.host) US_TO_GB (Word []) (Some true) empty_key_dictionary
    = (Return (Word []), empty_key_dictionary)
  ∧ translate (H:=Latin1.host) GB_TO_US (Word []) (Some true) empty_key_dictionary
    = (Return (Word (js "x")), empty_key_dictionary).
Proof.
  split.
  - apply (translate_empty_word (H:=Latin1.host) US_TO_GB
             empty_key_dictionary (Some true)).
    vm_compute. reflexivity.
  - apply (proj2 (translate_empty_word (H:=Latin1.host) GB_TO_US
                    empty_key_dictionary (Some true))
             (js "x") {| pattern := []; flags := js "gmi" |}).
    vm_compute. reflexivity.
Defined.

(** C9, against the claim as stated: after [add({gb: "", us: "x"})] the
    empty word is a key of the GB index, and [gbToUs("")] returns [x] with
    [matchCase] true and with [matchCase] false. *)
Lemma translate_empty_word_counterexample :
  gbToUs (H:=Latin1.host) (Word []) (Some true) empty_key_dictionary
    = (Return (Word (js "x")), empty_key_dictionary)
  ∧ gbToUs (H:=Latin1.host) (Word []) (Some false) empty_key_dictionary
    = (Return (Word (js "x")), empty_key_dictionary)
  ∧ gbToUs (H:=Latin1.host) (Word []) (Some true) empty_key_dictionary
    ≠ (Return (Word []), empty_key_dictionary)
  ∧ gbToUs (H:=Latin1.host) (Word []) (Some false) empty_key_dictionary
    ≠ (Return (Word []), empty_key_dictionary).
Proof. vm_compute. repeat split; discriminate. Qed.

(** ** The further properties at concrete inputs, on the Latin-1 host *)

(** X1 at [color] on the pattern [coLour]. *)
Lemma matchCase_changes_case_only_witness :
  Forall basic_latin (_matchCase (H:=Latin1.host) (js "color") (js "coLour"))
  ∧ same_letters (_matchCase (H:=Latin1.host) (js "color") (js "coLour"))
      (js "color")
  ∧ length (_matchCase (H:=Latin1.host) (js "color") (js "coLour"))
    = length (js "color").
Proof.
  apply (matchCase_changes_case_only (H:=Latin1.host) (js "color") (js "coLour")).
  apply basic_latinb_Forall. vm_compute. reflexivity.
Defined.

(** X2 at [hello] on the pattern [HeLLo]. *)
Lemma matchCase_same_letters_witness :
  _matchCase (H:=Latin1.host) (js "hello") (js "HeLLo") = js "HeLLo".
Proof.
  apply (matchCase_same_letters (H:=Latin1.host) (js "hello") (js "HeLLo")).
  - apply basic_latinb_Forall. vm_compute. reflexivity.
  - apply basic_latinb_Forall. vm_compute. reflexivity.
  - vm_compute. reflexivity.
Defined.

(** X4 at [mouldy]/[moldy] added to no entry. *)
Lemma add_translate_round_trip_witness :
  gbToUs (H:=Latin1.host) (Word (js "mouldy")) (Some false) mouldy_dictionary
    = (Return (Word (js "moldy")), mouldy_dictionary)
  ∧ usToGb (H:=Latin1.host) (Word (js "moldy")) (Some false) mouldy_dictionary
    = (Return (Word (js "mouldy")), mouldy_dictionary).
Proof.
  apply (add_translate_round_trip (H:=Latin1.host) mouldy_pair
           empty_dictionary mouldy_dictionary mouldy_dictionary).
  vm_compute. reflexivity.
Defined.

(** X5 at [mouldy]/[moldy] added to [colour_dictionary] and removed by
    [mouldy]. *)
Lemma add_remove_gb_round_trip_witness :
  (add (H:=Latin1.host) mouldy_pair ;; remove (H:=Latin1.host) (js "mouldy") None)
    colour_dictionary
  = (Return colour_dictionary, colour_dictionary).
Proof.
  apply (add_remove_gb_round_trip (H:=Latin1.host) mouldy_pair (js "mouldy")
           None colour_dictionary);
    vm_compute; (reflexivity || discriminate).
Defined.

(** X6 at the same pair removed by [moldy]. *)
Lemma add_remove_us_round_trip_witness :
  (add (H:=Latin1.host) mouldy_pair ;; remove (H:=Latin1.host) (js "moldy") None)
    colour_dictionary
  = (Return colour_dictionary, colour_dictionary).
Proof.
  apply (add_remove_us_round_trip (H:=Latin1.host) mouldy_pair (js "moldy")
           None colour_dictionary);
    vm_compute; (reflexivity || discriminate).
Defined.

(** X8 at [nonexistent] in [colour_dictionary]. *)
Lemma remove_unknown_word_witness :
  remove (H:=Latin1.host) (js "nonexistent") None colour_dictionary
  = (Return colour_dictionary, colour_dictionary).
Proof.
  apply (remove_unknown_word (H:=Latin1.host) (js "nonexistent")
           (js "nonexistent") None colour_dictionary);
    vm_compute; reflexivity.
Defined.

(** X9 at [x] and an open parenthesis. *)
Lemma add_partial_write_witness :
  ∃ d', add (H:=Latin1.host) refused_pair empty_dictionary
        = (Throw SyntaxError, d')
        ∧ gbToUs (H:=Latin1.host) (Word (js "x")) (Some false) d'
          = (Return (Word (js "(")), d')
        ∧ enUS d' = enUS empty_dictionary.
Proof.
  apply (add_partial_write (H:=Latin1.host) refused_pair empty_dictionary);
    vm_compute; reflexivity.
Defined.

(** X11 at the data of the tests with the addition [colour]/[hue]. *)
Lemma constructor_last_write_wins_witness :
  ∃ d, constructor (H:=Latin1.host) test_data [hue_pair] = (Return d, d)
       ∧ (gb hue_pair ∉ gb <$> [] →
          gbToUs (H:=Latin1.host) (Word (gb hue_pair)) (Some false) d
          = (Return (Word (us hue_pair)), d))
       ∧ (us hue_pair ∉ us <$> [] →
          usToGb (H:=Latin1.host) (Word (us hue_pair)) (Some false) d
          = (Return (Word (gb hue_pair)), d)).
Proof.
  apply (constructor_last_write_wins (H:=Latin1.host) test_data [hue_pair]
           (constructor_pairs test_data []) [] hue_pair);
    vm_compute; reflexivity.
Defined.

(** X12 at a data set with an open parenthesis. *)
Lemma constructor_throws_witness :
  ∃ d, constructor (H:=Latin1.host) refused_data [] = (Throw SyntaxError, d).
Proof.
  apply (constructor_throws (H:=Latin1.host) refused_data []).
  vm_compute. reflexivity.
Defined.

(** X15 at [colour]/[color] overridden by [colour]/[hue] and removed by
    [colour]. *)
Lemma override_then_remove_keeps_reverse_witness :
  ∃ d', (add (H:=Latin1.host) hue_pair ;; remove (H:=Latin1.host) (js "colour") None)
          colour_dictionary = (Return d', d')
        ∧ enGB d' !! js "colour" = None
        ∧ usToGb (H:=Latin1.host) (Word (js "color")) (Some false) d'
          = (Return (Word (js "colour")), d').
Proof.
  apply (override_then_remove_keeps_reverse (H:=Latin1.host) colour_dictionary
           (js "colour") (js "color") (js "hue") (js "colour")
           {| pattern := js "color"; flags := js "gmi" |} None);
    vm_compute; (reflexivity || discriminate).
Defined.

(** X16 at [Colour] in [colour_dictionary]. *)
Lemma matchCase_flag_changes_case_only_witness :
  ∃ r1,
    translate (H:=Latin1.host) GB_TO_US (Word (js "Colour")) (Some true)
      colour_dictionary = (Return (Word r1), colour_dictionary)
    ∧ same_letters r1 (js "color") ∧ length r1 = length (js "color").
Proof.
  apply (matchCase_flag_changes_case_only (H:=Latin1.host) GB_TO_US
           (js "Colour") (js "color") colour_dictionary).
  - intros key target regex.
    change (index GB_TO_US colour_dictionary)
      with (<[js "colour" := (js "color",
                {| pattern := js "colour"; flags := js "gmi" |})]>
              (∅ : gmap jsstring entry)).
    rewrite lookup_insert. case_decide; [|by rewrite lookup_empty].
    intros [= <- _]. apply basic_latinb_Forall. vm_compute. reflexivity.
  - intros target regex. vm_compute. discriminate.
  - vm_compute. reflexivity.
Defined.
